(** * diffbib: the record-matching engine of [index.js]

    A shallow embedding of the two matching strategies of diffbib
    ([hashStrategy] and [bruteforceStrategy]) together with the helpers
    they are built from, followed by the properties stated about them.

    Conventions of the embedding.
    - A JavaScript string is a Rocq [string].  The model is exact for
      ASCII text, where UTF-16 code units, UTF-8 bytes and characters
      coincide.
    - A record (one entry produced by the BibTeX parser) is a finite map
      from field names to strings; [el !! field = None] is JavaScript's
      [el[field] === undefined].  Field names are assumed not to be names
      of [Object.prototype] properties (all of those contain a lower-case
      letter, so no output of [normalizeFields] other than the own
      property [key] can be one).
    - A [TypeError] raised by reading a property of [undefined] is an
      explicit outcome of the [completion] monad.
    - Numbers that are string lengths or edit distances are [nat]; the one
      place where the program leaves the integers, the quotient
      [newLeven / max] compared with [0.3], is computed in IEEE 754
      binary64 with the Standard Library's [SpecFloat]. *)

From Stdlib Require Import ZArith Ascii String DecimalString Floats.SpecFloat.
From stdpp Require Import gmap strings list fin_maps.

(** ** The JavaScript runtime, as far as the program uses it *)

Module JS.

(** Outcome of evaluating a piece of code: a value, or a thrown
    [TypeError]. *)
Inductive completion (A : Type) : Type :=
| Return (a : A)
| TypeError.
Global Arguments Return {A} a.
Global Arguments TypeError {A}.

Global Instance completion_ret : MRet completion := @Return.
Global Instance completion_bind : MBind completion :=
  fun A B f c => match c with Return a => f a | TypeError => TypeError end.

(** [v.length] for a value that is a string or [undefined]. *)
Definition lengthOf (v : option string) : completion nat :=
  match v with
  | Some s => Return (String.length s)
  | None => TypeError
  end.

(** [n || 1] on a number. *)
Definition orOne (n : nat) : nat :=
  match n with
  | O => 1
  | S _ => n
  end.

(** [v || ''] for a value that is a string or [undefined]: the empty
    string is falsy, as is [undefined]. *)
Definition orEmpty (v : option string) : string :=
  match v with
  | Some (String c s) => String c s
  | Some EmptyString => ""
  | None => ""
  end.

(** [n || e] on a number read from an object that may lack it: [0] and
    [undefined] are falsy. *)
Definition orElse (v : option nat) (e : completion nat) : completion nat :=
  match v with
  | Some (S n) => Return (S n)
  | Some O => e
  | None => e
  end.

(** [String.prototype.toUpperCase], on ASCII letters. *)
Definition upperChar (c : ascii) : ascii :=
  let n := nat_of_ascii c in
  if (97 <=? n) && (n <=? 122) then ascii_of_nat (n - 32) else c.

Fixpoint toUpperCase (s : string) : string :=
  match s with
  | EmptyString => EmptyString
  | String c s' => String (upperChar c) (toUpperCase s')
  end.

(** [Array.prototype.join] on an array of strings. *)
Definition join (sep : string) (l : list string) : string := String.concat sep l.

(** *** Numbers: IEEE 754 binary64 *)

Definition prec : Z := 53.
Definition emax : Z := 1024.

(** The double that holds a non-negative integer. *)
Definition number (n : nat) : spec_float :=
  binary_normalize prec emax (Z.of_nat n) 0 false.

(** [x / y] and [x > y] on doubles. *)
Definition div (x y : spec_float) : spec_float := SFdiv prec emax x y.
Definition gt (x y : spec_float) : bool := SFltb y x.

(** Whether rounding to nearest, ties to even, adds one to the mantissa
    [m] of a value located at [l] between [m] and [m + 1]. *)
Definition roundsUp (m : Z) (l : location) : bool :=
  match l with
  | loc_Exact => false
  | loc_Inexact Lt => false
  | loc_Inexact Eq => Z.odd m
  | loc_Inexact Gt => true
  end.

(** [s.split(sep)] for a separator of one character: the pieces between
    its occurrences, always at least one. *)
Fixpoint splitOn (sep : ascii) (s : string) : list string :=
  match s with
  | EmptyString => [EmptyString]
  | String c s' =>
      if Ascii.eqb c sep then EmptyString :: splitOn sep s'
      else match splitOn sep s' with
           | piece :: pieces => String c piece :: pieces
           | [] => [String c EmptyString]
           end
  end.

(** A non-negative integer inside a template literal: its decimal
    digits. *)
Definition decimal (n : nat) : string := NilZero.string_of_uint (Nat.to_uint n).

(** A lower-case ASCII letter; a string without any. *)
Definition isLower (c : ascii) : bool :=
  let n := nat_of_ascii c in (97 <=? n) && (n <=? 122).

Definition noLower (s : string) : bool :=
  forallb (fun c => negb (isLower c)) (list_ascii_of_string s).

(** Occurrences of a character in a string. *)
Fixpoint occurrences (c : ascii) (s : string) : nat :=
  match s with
  | EmptyString => 0
  | String c' s' => (if Ascii.eqb c' c then 1 else 0) + occurrences c s'
  end.

End JS.

Export JS.

(** ** SHA-256 (FIPS 180-4), the digest behind [crypto.createHash('sha256')] *)

Module Sha256.
Local Open Scope Z_scope.

Definition wrap (x : Z) : Z := x mod 2 ^ 32.
Definition rotr (n x : Z) : Z := Z.lor (Z.shiftr x n) (wrap (Z.shiftl x (32 - n))).
Definition xor3 (x y z : Z) : Z := Z.lxor (Z.lxor x y) z.
Definition Ch (x y z : Z) : Z := Z.lxor (Z.land x y) (Z.land (Z.lxor x (2 ^ 32 - 1)) z).
Definition Maj (x y z : Z) : Z := xor3 (Z.land x y) (Z.land x z) (Z.land y z).
Definition bigSigma0 (x : Z) : Z := xor3 (rotr 2 x) (rotr 13 x) (rotr 22 x).
Definition bigSigma1 (x : Z) : Z := xor3 (rotr 6 x) (rotr 11 x) (rotr 25 x).
Definition smallSigma0 (x : Z) : Z := xor3 (rotr 7 x) (rotr 18 x) (Z.shiftr x 3).
Definition smallSigma1 (x : Z) : Z := xor3 (rotr 17 x) (rotr 19 x) (Z.shiftr x 10).

(** The constants are the leading fractional bits of the cube roots and
    square roots of the first primes; they are computed rather than
    listed. *)
Definition isPrime (p : Z) : bool :=
  forallb (fun d => negb (p mod Z.of_nat d =? 0)) (seq 2 (Z.to_nat p - 2)).
Definition primes : list Z :=
  Eval vm_compute in List.filter isPrime (map Z.of_nat (seq 2 310)).
Definition icbrt (n : Z) : Z :=
  fold_left (fun r b => let r' := r + 2 ^ Z.of_nat b in if r' * r' * r' <=? n then r' else r)
            (rev (seq 0 36)) 0.
Definition roundConstants : list Z :=
  Eval vm_compute in map (fun p => wrap (icbrt (p * 2 ^ 96))) primes.
Definition initialState : list Z :=
  Eval vm_compute in map (fun p => wrap (Z.sqrt (p * 2 ^ 64))) (take 8 primes).

Definition bigEndian (k : nat) (x : Z) : list Z :=
  map (fun i => Z.shiftr x (8 * Z.of_nat i) mod 256) (rev (seq 0 k)).

(** Padding: a [1] bit, zeros, and the bit length on 64 bits, up to a
    multiple of 64 bytes. *)
Definition pad (msg : list Z) : list Z :=
  let len := Z.of_nat (length msg) in
  msg ++ [128] ++ replicate (Z.to_nat ((55 - len) mod 64)) 0 ++ bigEndian 8 (8 * len).

Definition wordOf (bs : list Z) : Z := fold_left (fun acc b => acc * 256 + b) bs 0.

Fixpoint chunks {A} (fuel size : nat) (l : list A) : list (list A) :=
  match fuel, l with
  | S fuel', _ :: _ => take size l :: chunks fuel' size (drop size l)
  | _, _ => []
  end.

Definition schedule (block : list Z) : list Z :=
  fold_left (fun w t =>
               w ++ [wrap (smallSigma1 (nth (t - 2) w 0) + nth (t - 7) w 0
                           + smallSigma0 (nth (t - 15) w 0) + nth (t - 16) w 0)])
            (seq 16 48) (map wordOf (chunks 16 4 block)).

Definition round (s : list Z) (kw : Z * Z) : list Z :=
  match s with
  | [a; b; c; d; e; f; g; h] =>
      let t1 := h + bigSigma1 e + Ch e f g + fst kw + snd kw in
      let t2 := bigSigma0 a + Maj a b c in
      [wrap (t1 + t2); a; b; c; wrap (d + t1); e; f; g]
  | _ => s
  end.

Definition compress (s : list Z) (block : list Z) : list Z :=
  map wrap (zip_with Z.add s (fold_left round (zip roundConstants (schedule block)) s)).

Definition digest (msg : list Z) : list Z :=
  let padded := pad msg in
  fold_left compress (chunks (length padded) 64 padded) initialState.

Definition hexDigit (x : Z) : ascii :=
  ascii_of_nat (Z.to_nat (if x <? 10 then 48 + x else 87 + x)).
Definition hex8 (x : Z) : string :=
  fold_right (fun i s => String (hexDigit (Z.shiftr x (4 * Z.of_nat i) mod 16)) s)
             EmptyString (rev (seq 0 8)).

(** A character of a hexadecimal rendering: [0-9a-f]. *)
Definition isHex (c : ascii) : bool :=
  let n := Z.of_nat (nat_of_ascii c) in
  ((48 <=? n) && (n <=? 57)) || ((97 <=? n) && (n <=? 102)).

(** The bytes of a string, as [update(str, 'utf8')] feeds them. *)
Definition bytesOf (s : string) : list Z :=
  map (fun c => Z.of_nat (nat_of_ascii c)) (list_ascii_of_string s).

(** [digest('hex')]: eight words of eight lower-case hex digits. *)
Definition sha256hex (s : string) : string :=
  String.concat "" (map hex8 (digest (bytesOf s))).

End Sha256.

(** ** The [leven] package: Levenshtein distance *)

Module Leven.

(** Edit distance by dynamic programming, one row per character of [a].
    [row a b] lists the distance from [a] to every suffix of [b], the
    whole of [b] first and the empty suffix last. *)
Fixpoint rowEmpty (b : string) : list nat :=
  match b with
  | EmptyString => [0]
  | String _ b' => S (String.length b') :: rowEmpty b'
  end.

(** The row of [String x a'], of length [n], from the row [prev] of
    [a']: substitute (or keep) the first characters, delete [x], or
    insert the first character of [b]. *)
Fixpoint rowCons (x : ascii) (n : nat) (b : string) (prev : list nat) : list nat :=
  match b with
  | EmptyString => [n]
  | String y b' =>
      let rest := rowCons x n b' (tail prev) in
      Nat.min (hd 0 (tail prev) + (if Ascii.eqb x y then 0 else 1))
              (Nat.min (S (hd 0 prev)) (S (hd 0 rest))) :: rest
  end.

Fixpoint row (a b : string) : list nat :=
  match a with
  | EmptyString => rowEmpty b
  | String x a' => rowCons x (String.length a) b (row a' b)
  end.

Definition distance (a b : string) : nat := hd 0 (row a b).

(** [leven(left, right)] on values that may be [undefined]: the package
    returns [0] when [left === right] and otherwise reads
    [left.length] and [right.length]. *)
Definition leven (left right : option string) : completion nat :=
  match left, right with
  | None, None => Return 0
  | Some a, Some b => Return (distance a b)
  | _, _ => TypeError
  end.

End Leven.

Export Leven.

(** ** The program *)

Module Diffbib.

(** A bibliography entry: field name to field value. *)
Abbreviation Record := (gmap string string).

(** [const SIMILARITY_RATE = 0.3]: the double nearest to three tenths,
    [5404319552844595 * 2^-54]. *)
Definition SIMILARITY_RATE : spec_float := S754_finite false 5404319552844595 (-54).

(** [normalizeFields]: [fields.map(field => field == 'key' ? field :
    field.toUpperCase())]. *)
Definition normalizeFields (fields : list string) : list string :=
  map (fun field => if String.eqb field "key" then field else toUpperCase field) fields.

(** [hash]: SHA-256 of the string, in hexadecimal. *)
Definition hash (str : string) : string := Sha256.sha256hex str.

(** [getKey]: [hash(fields.map(field => el[field] || '').join('###'))]. *)
Definition getKey (el : Record) (fields : list string) : string :=
  hash (join "###" (map (fun field => orEmpty (el !! field)) fields)).

(** *** Lookup tables

    [buildLookupTable] fills a plain object keyed by fingerprint.  A
    fingerprint is sixty-four hex digits, never an array index, so
    [for (key in table)] visits the keys in the order of their first
    insertion, and assigning to a key already present replaces the value
    where it stands.  The table is an association list kept in that
    order. *)
Abbreviation Table := (list (string * Record)).

(** [table[key]] *)
Fixpoint tableGet (table : Table) (key : string) : option Record :=
  match table with
  | [] => None
  | (k, v) :: rest => if String.eqb k key then Some v else tableGet rest key
  end.

(** [table[key] = el] *)
Fixpoint tableSet (table : Table) (key : string) (el : Record) : Table :=
  match table with
  | [] => [(key, el)]
  | (k, v) :: rest =>
      if String.eqb k key then (k, el) :: rest else (k, v) :: tableSet rest key el
  end.

Definition buildLookupTable (items : list Record) (fields : list string) : Table :=
  fold_left (fun table el => tableSet table (getKey el fields) el) items [].

(** *** The result: three buckets *)

Record Status : Type := mkStatus {
  AB : list Record;
  OnlyA : list Record;
  OnlyB : list Record
}.

Definition emptyStatus : Status := mkStatus [] [] [].
Definition pushAB (el : Record) (status : Status) : Status :=
  mkStatus (AB status ++ [el]) (OnlyA status) (OnlyB status).
Definition pushOnlyA (el : Record) (status : Status) : Status :=
  mkStatus (AB status) (OnlyA status ++ [el]) (OnlyB status).
Definition pushOnlyB (el : Record) (status : Status) : Status :=
  mkStatus (AB status) (OnlyA status) (OnlyB status ++ [el]).

(** *** The hash strategy

    The two [for (let key in ...)] loops run over the entries of a
    table; [listA[key]] inside the first loop is the entry's own
    value. *)
Definition hashStrategy (fields : list string) (origBib destBib : list Record) : Status :=
  let listA := buildLookupTable origBib fields in
  let listB := buildLookupTable destBib fields in
  let status :=
    fold_left (fun status '(key, el) =>
                 match tableGet listB key with
                 | Some _ => pushAB el status
                 | None => pushOnlyA el status
                 end) listA emptyStatus in
  fold_left (fun status '(key, el) =>
               match tableGet listA key with
               | None => pushOnlyB el status
               | Some _ => status
               end) listB status.

(** *** The bruteforce strategy *)

(** The two variables of [findSmallestSimilar] that outlive an
    iteration. *)
Record Search : Type := mkSearch {
  smallest : option Record;
  computedLeven : gmap string nat
}.

(** [similarity > SIMILARITY_RATE], with [similarity = newLeven / max]. *)
Definition overRate (newLeven max : nat) : bool :=
  gt (div (number newLeven) (number max)) SIMILARITY_RATE.

(** The body of [for (field of fields)] for one candidate [el]; every
    [break] returns the state reached, falling through the last [if]
    goes on with the next field. *)
Fixpoint fieldLoop (element el : Record) (fields : list string) (st : Search)
  : completion Search :=
  match fields with
  | [] => Return st
  | field :: rest =>
      newLeven ← leven (element !! field) (el !! field);
      lenA ← lengthOf (element !! field);
      lenB ← lengthOf (el !! field);
      let max := Nat.max (orOne lenA) (orOne lenB) in
      if overRate newLeven max then Return st
      else
        match smallest st with
        | None => Return (mkSearch (Some el) {[ field := newLeven ]})
        | Some best =>
            currLeven ← orElse (computedLeven st !! field)
                               (leven (element !! field) (best !! field));
            if currLeven <? newLeven then Return st
            else if newLeven <? currLeven
                 then Return (mkSearch (Some el) {[ field := newLeven ]})
                 else fieldLoop element el rest st
        end
  end.

(** [for (let el of list)], the candidates being [items]. *)
Fixpoint candidateLoop (element : Record) (fields : list string) (items : list Record)
         (st : Search) : completion Search :=
  match items with
  | [] => Return st
  | el :: rest =>
      st' ← fieldLoop element el fields st;
      candidateLoop element fields rest st'
  end.

Definition findSmallestSimilar (element : Record) (fields : list string)
           (items : list Record) : completion (option Record) :=
  st ← candidateLoop element fields items (mkSearch None ∅);
  Return (smallest st).

(** One iteration of [for (let el of origBib)]. *)
Definition originStep (fields : list string) (destBib : list Record)
           (el : Record) (status : Status) : completion Status :=
  similar ← findSmallestSimilar el fields destBib;
  match similar with
  | Some _ => Return (pushAB el status)
  | None => Return (pushOnlyA el status)
  end.

(** One iteration of [for (let el of destBib)]. *)
Definition destinyStep (fields : list string) (origBib : list Record)
           (el : Record) (status : Status) : completion Status :=
  similar ← findSmallestSimilar el fields origBib;
  match similar with
  | None => Return (pushOnlyB el status)
  | Some _ => Return status
  end.

Fixpoint forOf (step : Record -> Status -> completion Status) (items : list Record)
         (status : Status) : completion Status :=
  match items with
  | [] => Return status
  | el :: rest => status' ← step el status; forOf step rest status'
  end.

Definition bruteforceStrategy (fields : list string) (origBib destBib : list Record)
  : completion Status :=
  status ← forOf (originStep fields destBib) origBib emptyStatus;
  forOf (destinyStep fields origBib) destBib status.

(** *** Reporting and the entry point *)

(** [keys]: [arr.map(el => el.key || '').join(', ')]. *)
Definition keys (arr : list Record) : string :=
  join ", " (map (fun el => orEmpty (el !! "key")) arr).

(** [line], as the line it logs. *)
Definition line : list string := ["-------------------------------"].

(** [printStatus], as the lines it logs. *)
Definition printStatus (status : Status) (originBib destinyBib : list Record) : list string :=
  ["Origin entries: " +:+ decimal (length originBib)
   +:+ ", Destiny entries: " +:+ decimal (length destinyBib)]
  ++ line
  ++ ["Common keys: " +:+ decimal (length (AB status))]
  ++ (if 0 <? length (AB status) then ["Keys: " +:+ keys (AB status)] else [])
  ++ line
  ++ ["Only in the origin file: " +:+ decimal (length (OnlyA status))]
  ++ (if 0 <? length (OnlyA status) then ["Keys: " +:+ keys (OnlyA status)] else [])
  ++ line
  ++ ["Only in the destiny file: " +:+ decimal (length (OnlyB status))]
  ++ (if 0 <? length (OnlyB status) then ["Keys: " +:+ keys (OnlyB status)] else []).

(** What [Strategies[name]] can be: one of the two strategies, a member of
    [Object.prototype] reached through the prototype chain, or
    [undefined]. *)
Inductive Entry : Type :=
| Own (strategy : list string → list Record → list Record → completion Status)
| Inherited
| Undefined.

(** [Object.keys(Strategies)] *)
Definition strategyNames : list string := ["hash"; "bruteforce"].

(** The names [Object.prototype] answers to. *)
Definition prototypeNames : list string :=
  ["constructor"; "__defineGetter__"; "__defineSetter__"; "hasOwnProperty";
   "__lookupGetter__"; "__lookupSetter__"; "isPrototypeOf"; "propertyIsEnumerable";
   "toString"; "valueOf"; "__proto__"; "toLocaleString"].

(** [Strategies[name]] *)
Definition Strategies (name : string) : Entry :=
  if String.eqb name "hash" then Own (fun fields a b => Return (hashStrategy fields a b))
  else if String.eqb name "bruteforce" then Own bruteforceStrategy
  else if bool_decide (name ∈ prototypeNames) then Inherited
  else Undefined.

(** A collection handed to a strategy: an array, or [undefined] when its
    file did not load.  Iterating [undefined] raises. *)
Definition iterate (bib : option (list Record)) : completion (list Record) :=
  match bib with
  | Some items => Return items
  | None => TypeError
  end.

(** How [main] ends: it returns, it calls [process.exit] with a code, a
    [TypeError] rejects its promise, or control passes to a built-in of
    [Object.prototype]. *)
Inductive Ending : Type :=
| Completed
| Exited (code : Z)
| Rejected
| Builtin.

Record Run : Type := mkRun { printed : list string; ending : Ending }.

(** [main], from the parsed options on.  [LoadBib] answers [None] where
    reading or parsing the file throws; an option that is absent or the
    empty string is falsy.  A strategy is handed the two loaded values; both
    strategies start by iterating them, so either one being [undefined]
    raises before anything else happens.  For a name that
    [Object.prototype] answers to, the guard passes and the run goes on to
    call that built-in, where the model stops. *)
Definition main (strategy field : string) (origin destiny : option string)
           (LoadBib : string → option (list Record)) : Run :=
  match Strategies strategy with
  | Undefined => mkRun ["Unknown strategy! Options are hash or bruteforce."] (Exited (-1))
  | entry =>
      let fields := normalizeFields (splitOn "," field) in
      match origin, destiny with
      | Some (String _ _ as originFile), Some (String _ _ as destinyFile) =>
          let originBib := LoadBib originFile in
          let log1 := match originBib with
                      | None => ["origin file is not a valid bibtex file"]
                      | Some _ => []
                      end in
          let destinyBib := LoadBib destinyFile in
          let log2 := match destinyBib with
                      | None => ["destiny file is not a valid bibtex file"]
                      | Some _ => []
                      end in
          match entry with
          | Own run =>
              match (a ← iterate originBib; b ← iterate destinyBib;
                     status ← run fields a b; Return (printStatus status a b)) with
              | Return report => mkRun (log1 ++ log2 ++ report) Completed
              | TypeError => mkRun (log1 ++ log2) Rejected
              end
          | _ => mkRun (log1 ++ log2) Builtin
          end
      | _, _ => mkRun ["No origin and destiny file specified!"] Completed
      end
  end.

(** The fields [main] compares, from the [--field] option. *)
Definition fieldsOf (field : string) : list string := normalizeFields (splitOn "," field).

(** *** Notions used in the statements *)

(** The fingerprint of a record, for a field list fixed first. *)
Definition fingerprint (fields : list string) (el : Record) : string := getKey el fields.

(** [r] stands in [items] and no later record of [items] carries its
    fingerprint: it is the one its fingerprint's slot holds in the end. *)
Definition lastOfFingerprint (fields : list string) (items : list Record) (r : Record)
  : Prop :=
  ∃ before after, items = before ++ r :: after ∧
                  ∀ y, y ∈ after → fingerprint fields y ≠ fingerprint fields r.

(** The fingerprint of [r] has no counterpart in [items]. *)
Definition noCounterpart (fields : list string) (items : list Record) (r : Record) : Prop :=
  ∀ a, a ∈ items → fingerprint fields a ≠ fingerprint fields r.

(** An entry of a table whose fingerprint is a key of [table]. *)
Definition keyIn (table : Table) (entry : string * Record) : Prop :=
  is_Some (tableGet table entry.1).

(** Two values of a compared field that [el[field] || ''] does not tell
    apart: equal, or each one empty or absent. *)
Definition emptyOrAbsent (v : option string) : Prop := v = None ∨ v = Some "".
Definition sameOrEmpty (v w : option string) : Prop :=
  v = w ∨ (emptyOrAbsent v ∧ emptyOrAbsent w).

(** Every listed field has a value in [el]. *)
Definition present (fields : list string) (el : Record) : Prop :=
  ∀ field, field ∈ fields → is_Some (el !! field).

(** [max] as [findSmallestSimilar] computes it:
    [Math.max(a.length || 1, b.length || 1)]. *)
Definition longer (a b : string) : nat :=
  Nat.max (orOne (String.length a)) (orOne (String.length b)).

(** The candidate [el] gets past [if (similarity > SIMILARITY_RATE) break]
    on [field]. *)
Definition passesRate (element el : Record) (field : string) : bool :=
  match element !! field, el !! field with
  | Some a, Some b => negb (overRate (distance a b) (longer a b))
  | _, _ => false
  end.

(** ... on the first compared field, when there is one. *)
Definition passesFirst (element : Record) (fields : list string) (el : Record) : bool :=
  match fields with
  | [] => false
  | field :: _ => passesRate element el field
  end.

(** The search for [element] among [items] returns a record, or returns
    [undefined]. *)
Definition foundSimilar (fields : list string) (items : list Record) (element : Record)
  : bool :=
  match findSmallestSimilar element fields items with
  | Return (Some _) => true
  | _ => false
  end.
Definition foundNone (fields : list string) (items : list Record) (element : Record)
  : bool :=
  match findSmallestSimilar element fields items with
  | Return None => true
  | _ => false
  end.

(** A string shorter than 2^52 characters, as every JavaScript string
    is. *)
Definition short (s : string) : Prop := (Z.of_nat (String.length s) < 2 ^ 52)%Z.

(** The edit distance between the values two records hold for a field. *)
Definition fieldDistance (element el : Record) (field : string) : nat :=
  match element !! field, el !! field with
  | Some a, Some b => distance a b
  | _, _ => 0
  end.

(** ... for the first compared field. *)
Definition firstDistance (element : Record) (fields : list string) (el : Record) : nat :=
  match fields with
  | [] => 0
  | field :: _ => fieldDistance element el field
  end.

(** Every distance [computedLeven] holds is the best candidate's own. *)
Definition cacheOk (element : Record) (st : Search) : Prop :=
  ∀ best field v,
    smallest st = Some best → computedLeven st !! field = Some v →
    v = fieldDistance element best field.

(** The state of a search after the candidates [seen]: no best candidate
    when none passed the threshold on the first field, otherwise one of
    them that did, as near on that field as any that did. *)
Definition searchInv (element : Record) (fields : list string) (seen : list Record)
           (st : Search) : Prop :=
  cacheOk element st ∧
  match smallest st with
  | None => ∀ x, x ∈ seen → passesFirst element fields x = false
  | Some best =>
      best ∈ seen ∧ passesFirst element fields best = true ∧
      ∀ x, x ∈ seen → passesFirst element fields x = true →
           firstDistance element fields best ≤ firstDistance element fields x
  end.

(** *** Sample data *)

Definition deepA : Record := {[ "key" := "a1"; "TITLE" := "Deep Learning" ]}.
Definition deepA' : Record := {[ "key" := "a2"; "TITLE" := "Deep Learning" ]}.
Definition graphB : Record := {[ "key" := "b1"; "TITLE" := "Graph Theory" ]}.
Definition graphB' : Record := {[ "key" := "b2"; "TITLE" := "Graph Theory" ]}.
Definition deepYear : Record :=
  {[ "key" := "a1"; "TITLE" := "Deep Learning"; "YEAR" := "2016" ]}.
Definition deepNote : Record :=
  {[ "key" := "a1"; "TITLE" := "Deep Learning"; "NOTE" := "" ]}.
Definition untitled : Record := {[ "key" := "a3" ]}.
Definition algorithms : Record := {[ "key" := "a4"; "TITLE" := "Algorithms" ]}.
Definition algorit : Record := {[ "key" := "b4"; "TITLE" := "Algorit" ]}.
Definition netsA : Record := {[ "key" := "a1"; "TITLE" := "Neural Nets" ]}.
Definition netsB : Record := {[ "key" := "a2"; "TITLE" := "Neural Networks" ]}.

(** A loader for two sample files; any other name fails to load. *)
Definition sampleLoad (file : string) : option (list Record) :=
  if String.eqb file "a.bib" then Some [deepA; untitled]
  else if String.eqb file "b.bib" then Some [netsB]
  else None.

End Diffbib.

Import Diffbib.

(** * Properties *)

(** ** The edit distance *)

Section LevenFacts.

Lemma rowEmpty_hd (b : string) : hd 0 (rowEmpty b) = String.length b.
Proof. by destruct b. Qed.

Lemma row_tail (a : string) (y : ascii) (b : string) :
  tail (row a (String y b)) = row a b.
Proof.
  induction a as [|x a IH]; [done|].
  cbn [row rowCons tail]. by rewrite IH.
Qed.

Lemma distance_empty_l (b : string) : distance "" b = String.length b.
Proof. apply rowEmpty_hd. Qed.

Lemma distance_empty_r (a : string) : distance a "" = String.length a.
Proof. by destruct a. Qed.

(** The Wagner-Fischer recurrence: substitute or keep, delete, insert. *)
Lemma distance_cons (x y : ascii) (a b : string) :
  distance (String x a) (String y b) =
  Nat.min (distance a b + (if Ascii.eqb x y then 0 else 1))
          (Nat.min (S (distance a (String y b))) (S (distance (String x a) b))).
Proof.
  unfold distance. cbn [row rowCons hd]. by rewrite row_tail.
Qed.

Lemma distance_le_max (a b : string) :
  distance a b ≤ Nat.max (String.length a) (String.length b).
Proof.
  revert b. induction a as [|x a IH]; intros b.
  - rewrite distance_empty_l. simpl. lia.
  - destruct b as [|y b].
    + rewrite distance_empty_r. simpl. lia.
    + rewrite distance_cons. specialize (IH b). simpl String.length.
      destruct (Ascii.eqb x y); lia.
Qed.

Lemma distance_same (a : string) : distance a a = 0.
Proof.
  induction a as [|x a IH]; [done|].
  rewrite distance_cons, IH, Ascii.eqb_refl. lia.
Qed.

End LevenFacts.

(** ** The digest *)

Section Sha256Facts.

Import Sha256.

Lemma round_length (s : list Z) (kw : Z * Z) : length s = 8 → length (round s kw) = 8.
Proof.
  intros H. unfold round.
  do 9 (destruct s as [|? s]; try done).
Qed.

Lemma rounds_length (kws : list (Z * Z)) (s : list Z) :
  length s = 8 → length (fold_left round kws s) = 8.
Proof.
  revert s. induction kws as [|kw kws IH]; intros s H; [done|].
  simpl. apply IH. by apply round_length.
Qed.

Lemma compress_length (s block : list Z) : length s = 8 → length (compress s block) = 8.
Proof.
  intros H. unfold compress.
  rewrite length_map, length_zip_with, rounds_length by done. lia.
Qed.

Lemma digest_length (msg : list Z) : length (digest msg) = 8.
Proof.
  unfold digest.
  generalize (chunks (length (pad msg)) 64 (pad msg)).
  assert (length initialState = 8) as H by done.
  revert H. generalize initialState.
  intros s H blocks. revert s H.
  induction blocks as [|blk blocks IH]; intros s H; [done|].
  simpl. apply IH. by apply compress_length.
Qed.

Lemma hex8_length (x : Z) : String.length (hex8 x) = 8.
Proof. reflexivity. Qed.

Lemma digest_words (msg : list Z) :
  ∃ h0 h1 h2 h3 h4 h5 h6 h7, digest msg = [h0; h1; h2; h3; h4; h5; h6; h7].
Proof.
  pose proof (digest_length msg) as H.
  destruct (digest msg) as [|h0 [|h1 [|h2 [|h3 [|h4 [|h5 [|h6 [|h7 [|h8 t]]]]]]]]];
    try done.
  by exists h0, h1, h2, h3, h4, h5, h6, h7.
Qed.

(** A digest is 256 bits written as 64 hexadecimal digits. *)
Lemma sha256hex_length (s : string) : String.length (sha256hex s) = 64.
Proof.
  unfold sha256hex.
  destruct (digest_words (bytesOf s)) as (h0 & h1 & h2 & h3 & h4 & h5 & h6 & h7 & ->).
  reflexivity.
Qed.

Lemma hexDigit_isHex (x : Z) : isHex (hexDigit (x mod 16)) = true.
Proof.
  assert (0 ≤ x mod 16 < 16)%Z as H by (apply Z.mod_pos_bound; lia).
  assert (∃ n : nat, n < 16 ∧ (x mod 16)%Z = Z.of_nat n) as (n & Hn & ->).
  { exists (Z.to_nat (x mod 16)). lia. }
  do 16 (destruct n as [|n]; [reflexivity|]). lia.
Qed.

Lemma hex8_isHex (x : Z) : forallb isHex (list_ascii_of_string (hex8 x)) = true.
Proof.
  unfold hex8. cbn [rev seq app fold_right list_ascii_of_string forallb].
  by rewrite !hexDigit_isHex.
Qed.

Lemma list_ascii_of_string_app (s t : string) :
  list_ascii_of_string (s +:+ t) = list_ascii_of_string s ++ list_ascii_of_string t.
Proof. induction s as [|c s IH]; [done|]. simpl. by rewrite IH. Qed.

Lemma sha256hex_isHex (s : string) :
  forallb isHex (list_ascii_of_string (sha256hex s)) = true.
Proof.
  unfold sha256hex.
  destruct (digest_words (bytesOf s)) as (h0 & h1 & h2 & h3 & h4 & h5 & h6 & h7 & ->).
  cbn [map String.concat].
  rewrite !list_ascii_of_string_app, !forallb_app, !hex8_isHex. reflexivity.
Qed.

End Sha256Facts.

(** ** Lookup tables *)

Section TableFacts.

Implicit Types (t : Table) (k : string) (v el : Record) (fields : list string).

Lemma tableGet_None t k : tableGet t k = None ↔ k ∉ t.*1.
Proof.
  induction t as [|[k' v'] t IH]; simpl.
  - split; [intros _; apply not_elem_of_nil | done].
  - rewrite not_elem_of_cons. destruct (String.eqb_spec k' k) as [->|Hne].
    + split; [done | by intros [? _]].
    + rewrite IH. split; [by intros ?; split | by intros [_ ?]].
Qed.

Lemma tableGet_is_Some t k : is_Some (tableGet t k) ↔ k ∈ t.*1.
Proof.
  rewrite <- not_eq_None_Some, tableGet_None.
  split; [apply dec_stable | by intros ? ?].
Qed.

Lemma tableGet_elem t k v : NoDup t.*1 → (tableGet t k = Some v ↔ (k, v) ∈ t).
Proof.
  induction t as [|[k' v'] t IH]; simpl; intros Hnd.
  - split; [done | by intros ?%elem_of_nil].
  - apply NoDup_cons in Hnd as [Hk' Hnd]. rewrite elem_of_cons.
    destruct (String.eqb_spec k' k) as [->|Hne].
    + split; [intros [= ->]; by left|].
      intros [[= ->]|Hin]; [done|].
      destruct Hk'. apply list_elem_of_fmap. by exists (k, v).
    + rewrite (IH Hnd). split; [by right | intros [[= ? ?]|?]; [congruence | done]].
Qed.

Lemma tableSet_fresh t k v : k ∉ t.*1 → tableSet t k v = t ++ [(k, v)].
Proof.
  induction t as [|[k' v'] t IH]; simpl; [done|].
  rewrite not_elem_of_cons. intros [Hne Hk].
  destruct (String.eqb_spec k' k) as [->|_]; [done|]. by rewrite IH.
Qed.

Lemma tableSet_keys t k v : k ∈ t.*1 → (tableSet t k v).*1 = t.*1.
Proof.
  induction t as [|[k' v'] t IH]; simpl; [by intros ?%elem_of_nil|].
  rewrite elem_of_cons.
  destruct (String.eqb_spec k' k) as [->|Hne]; [done|].
  intros [->|Hk]; [done|]. rewrite !fmap_cons. f_equal. by apply IH.
Qed.

Lemma tableSet_NoDup t k v : NoDup t.*1 → NoDup (tableSet t k v).*1.
Proof.
  intros Hnd. destruct (decide (k ∈ t.*1)) as [Hk|Hk].
  - by rewrite tableSet_keys.
  - rewrite tableSet_fresh, fmap_app by done. apply NoDup_app. split; [done|].
    split; [|apply NoDup_singleton].
    intros x Hx ->%list_elem_of_singleton. done.
Qed.

Lemma tableGet_tableSet t k v k' :
  tableGet (tableSet t k v) k' = if String.eqb k k' then Some v else tableGet t k'.
Proof.
  induction t as [|[k0 v0] t IH]; simpl; [done|].
  destruct (String.eqb_spec k0 k) as [->|Hne]; simpl.
  - by destruct (String.eqb_spec k k').
  - rewrite IH. destruct (String.eqb_spec k0 k') as [->|?]; [|done].
    by destruct (String.eqb_spec k k').
Qed.

Lemma buildLookupTable_snoc (l : list Record) el fields :
  buildLookupTable (l ++ [el]) fields =
  tableSet (buildLookupTable l fields) (getKey el fields) el.
Proof. unfold buildLookupTable. by rewrite fold_left_app. Qed.

Lemma buildLookupTable_NoDup (l : list Record) fields :
  NoDup (buildLookupTable l fields).*1.
Proof.
  induction l as [|el l IH] using rev_ind; [apply NoDup_nil_2|].
  rewrite buildLookupTable_snoc. by apply tableSet_NoDup.
Qed.

Lemma buildLookupTable_keys (l : list Record) fields k :
  k ∈ (buildLookupTable l fields).*1 ↔ ∃ el, el ∈ l ∧ getKey el fields = k.
Proof.
  rewrite <- tableGet_is_Some.
  induction l as [|el l IH] using rev_ind.
  - split; [by intros [? ?] | by intros (? & ?%elem_of_nil & _)].
  - rewrite buildLookupTable_snoc, tableGet_tableSet.
    destruct (String.eqb_spec (getKey el fields) k) as [Heq|Hne].
    + split; [|done]. intros _. exists el. split; [|done].
      apply elem_of_app. right. by apply list_elem_of_singleton.
    + rewrite IH. split.
      * intros (x & Hx & Hk). exists x. split; [|done]. apply elem_of_app. by left.
      * intros (x & [Hx| ->%list_elem_of_singleton]%elem_of_app & Hk); [by exists x | done].
Qed.

(** A fingerprint of a collection with no duplicates lands in a fresh
    slot: the table lists the collection itself. *)
Lemma buildLookupTable_NoDup_keys (l : list Record) fields :
  NoDup ((λ el, getKey el fields) <$> l) →
  buildLookupTable l fields = (λ el, (getKey el fields, el)) <$> l.
Proof.
  induction l as [|el l IH] using rev_ind; [done|].
  rewrite !fmap_app. simpl. intros (Hnd & Hfresh & _)%NoDup_app.
  rewrite buildLookupTable_snoc, tableSet_fresh; [by rewrite IH|].
  rewrite IH by done. rewrite <- list_fmap_compose. simpl.
  intros Hin. apply (Hfresh _ Hin). by apply list_elem_of_singleton.
Qed.

End TableFacts.

(** ** The hash strategy *)

Section HashFacts.

Implicit Types (t : Table) (k : string) (v el : Record) (fields : list string).

Lemma buildLookupTable_get (l : list Record) fields k v :
  tableGet (buildLookupTable l fields) k = Some v ↔
  lastOfFingerprint fields l v ∧ getKey v fields = k.
Proof.
  revert k v. induction l as [|x l IH] using rev_ind; intros k v.
  - split; [done|]. intros [(l1 & l2 & Heq & _) _]. by destruct l1.
  - rewrite buildLookupTable_snoc, tableGet_tableSet.
    destruct (String.eqb_spec (getKey x fields) k) as [Hk|Hk].
    + split.
      * intros [= ->]. split; [|done]. exists l, []. split; [done|].
        by intros y ?%elem_of_nil.
      * intros [(l1 & l2 & Heq & Hlast) Hv].
        destruct l2 as [|z l2 _] using rev_ind.
        { apply app_inj_tail in Heq as [_ ->]. done. }
        rewrite app_comm_cons, app_assoc in Heq.
        apply app_inj_tail in Heq as [_ ->].
        destruct (Hlast z); [|unfold fingerprint; congruence].
        apply elem_of_app. right. by apply list_elem_of_singleton.
    + rewrite IH. split.
      * intros [(l1 & l2 & -> & Hlast) Hv]. split; [|done].
        exists l1, (l2 ++ [x]). split; [by rewrite <- app_assoc|].
        intros y [Hy| ->%list_elem_of_singleton]%elem_of_app; [by apply Hlast|].
        unfold fingerprint. congruence.
      * intros [(l1 & l2 & Heq & Hlast) Hv]. split; [|done].
        destruct l2 as [|z l2 _] using rev_ind.
        { apply app_inj_tail in Heq as [_ ->]. done. }
        rewrite app_comm_cons, app_assoc in Heq.
        apply app_inj_tail in Heq as [-> ->].
        exists l1, l2. split; [done|]. intros y Hy. apply Hlast.
        apply elem_of_app. by left.
Qed.

Lemma buildLookupTable_entry (l : list Record) fields k v :
  (k, v) ∈ buildLookupTable l fields ↔ lastOfFingerprint fields l v ∧ getKey v fields = k.
Proof.
  rewrite <- buildLookupTable_get. symmetry.
  apply tableGet_elem, buildLookupTable_NoDup.
Qed.

Lemma buildLookupTable_values (l : list Record) fields v :
  v ∈ (buildLookupTable l fields).*2 ↔ lastOfFingerprint fields l v.
Proof.
  rewrite list_elem_of_fmap. split.
  - intros ([k v'] & -> & Hin). by apply buildLookupTable_entry in Hin as [? _].
  - intros Hlast. exists (getKey v fields, v). split; [done|].
    by apply buildLookupTable_entry.
Qed.

(** The first loop of [hashStrategy], from any status. *)
Lemma originLoop_buckets (tB t : Table) (status : Status) :
  fold_left (λ status '(key, el),
               match tableGet tB key with
               | Some _ => pushAB el status
               | None => pushOnlyA el status
               end) t status =
  mkStatus (AB status ++ (filter (keyIn tB) t).*2)
           (OnlyA status ++ (filter (λ p, ¬ keyIn tB p) t).*2)
           (OnlyB status).
Proof.
  revert status. induction t as [|[k v] t IH]; intros status.
  - cbn [fold_left]. rewrite !filter_nil. cbn [fmap list_fmap]. rewrite !app_nil_r.
    by destruct status.
  - cbn [fold_left]. rewrite IH, !filter_cons.
    destruct (decide (keyIn tB (k, v))) as [Hin|Hnin].
    + rewrite decide_False by tauto. destruct Hin as [w Hw]. cbn [fst] in Hw.
      rewrite Hw. cbn. by rewrite <- app_assoc.
    + rewrite decide_True by done.
      apply eq_None_not_Some in Hnin. cbn [fst] in Hnin.
      rewrite Hnin. cbn. by rewrite <- app_assoc.
Qed.

(** The second loop of [hashStrategy], from any status. *)
Lemma destinyLoop_buckets (tA t : Table) (status : Status) :
  fold_left (λ status '(key, el),
               match tableGet tA key with
               | None => pushOnlyB el status
               | Some _ => status
               end) t status =
  mkStatus (AB status) (OnlyA status)
           (OnlyB status ++ (filter (λ p, ¬ keyIn tA p) t).*2).
Proof.
  revert status. induction t as [|[k v] t IH]; intros status.
  - cbn [fold_left]. rewrite !filter_nil. cbn [fmap list_fmap]. rewrite !app_nil_r.
    by destruct status.
  - cbn [fold_left]. rewrite IH, !filter_cons.
    destruct (decide (keyIn tA (k, v))) as [Hin|Hnin].
    + rewrite decide_False by tauto. destruct Hin as [w Hw]. cbn [fst] in Hw.
      by rewrite Hw.
    + rewrite decide_True by done.
      apply eq_None_not_Some in Hnin. cbn [fst] in Hnin.
      rewrite Hnin. cbn. by rewrite <- app_assoc.
Qed.

(** The three buckets, read off the two tables. *)
Lemma hashStrategy_buckets fields (origBib destBib : list Record) :
  hashStrategy fields origBib destBib =
  let listA := buildLookupTable origBib fields in
  let listB := buildLookupTable destBib fields in
  mkStatus (filter (keyIn listB) listA).*2
           (filter (λ p, ¬ keyIn listB p) listA).*2
           (filter (λ p, ¬ keyIn listA p) listB).*2.
Proof.
  unfold hashStrategy. by rewrite originLoop_buckets, destinyLoop_buckets.
Qed.

(** Two tables share as many keys either way round. *)
Lemma shared_keys_length (tA tB : Table) :
  NoDup tA.*1 → NoDup tB.*1 →
  length (filter (keyIn tB) tA) = length (filter (keyIn tA) tB).
Proof.
  intros HA HB.
  rewrite <- (length_fmap fst (filter (keyIn tB) tA)).
  rewrite <- (length_fmap fst (filter (keyIn tA) tB)).
  apply Permutation_length, NoDup_Permutation.
  - eapply sublist_NoDup; [exact HA|]. apply fmap_sublist, sublist_filter.
  - eapply sublist_NoDup; [exact HB|]. apply fmap_sublist, sublist_filter.
  - assert (∀ (t1 t2 : Table) k,
               k ∈ (filter (keyIn t2) t1).*1 ↔ k ∈ t1.*1 ∧ k ∈ t2.*1) as Hchar.
    { intros t1 t2 k. split.
      - intros ([k' v] & -> & [Hin2 Hin1]%list_elem_of_filter)%list_elem_of_fmap. split.
        + apply list_elem_of_fmap. by exists (k', v).
        + by apply (tableGet_is_Some t2 k').
      - intros [([k' v] & -> & Hin1)%list_elem_of_fmap Hin2].
        apply list_elem_of_fmap. exists (k', v). split; [done|].
        apply list_elem_of_filter. split; [|done].
        by apply (tableGet_is_Some t2 k'). }
    intros k. rewrite !Hchar. tauto.
Qed.

End HashFacts.

(** ** Statements about the field normalizer and the key builder *)

(** C9.  [normalizeFields] returns a list of the same length in which
    entry [i] is entry [i] of the input, kept as it is when it is the
    identifier field name ["key"] and upper-cased otherwise.  It is a total
    function: there is no input on which it fails. *)
Theorem normalizeFields_spec (fields : list string) :
  length (normalizeFields fields) = length fields ∧
  ∀ i : nat,
    normalizeFields fields !! i =
    (λ field, if decide (field = "key") then field else toUpperCase field) <$> fields !! i.
Proof.
  split; [apply length_map|].
  induction fields as [|field fields IH]; intros i; [done|].
  destruct i as [|i]; [|apply IH].
  cbn. f_equal. destruct (String.eqb_spec field "key"); by case_decide.
Qed.

Lemma orEmpty_default (v : option string) : orEmpty v = default "" v.
Proof. by destruct v as [[|c s]|]. Qed.

Lemma orEmpty_sameOrEmpty (v w : option string) : sameOrEmpty v w → orEmpty v = orEmpty w.
Proof.
  intros [->|[[-> | ->] [-> | ->]]]; done.
Qed.

Lemma getKey_ext (fields : list string) (el1 el2 : Record) :
  (∀ field, field ∈ fields → orEmpty (el1 !! field) = orEmpty (el2 !! field)) →
  getKey el1 fields = getKey el2 fields.
Proof.
  intros H. unfold getKey. do 2 f_equal.
  induction fields as [|field fields IH]; [done|].
  cbn [map]. f_equal.
  - apply H. by left.
  - apply IH. intros f Hf. apply H. by right.
Qed.

(** C8.  The fingerprint of a record is the SHA-256 digest, written as 64
    hexadecimal digits (256 bits), of the record's values for the listed
    fields, the empty string standing for an absent one, joined by
    ["###"]; hence two records with the same values on the listed fields
    have the same fingerprint, whatever else they hold. *)
Theorem getKey_fingerprint (fields : list string) (el1 el2 : Record) :
  (∀ field, field ∈ fields → el1 !! field = el2 !! field) →
  getKey el1 fields =
    Sha256.sha256hex (join "###" (map (λ field, default "" (el1 !! field)) fields)) ∧
  String.length (getKey el1 fields) = 64 ∧
  forallb Sha256.isHex (list_ascii_of_string (getKey el1 fields)) = true ∧
  getKey el1 fields = getKey el2 fields.
Proof.
  intros Hsame. split; [|split; [|split]].
  - unfold getKey, hash. do 2 f_equal.
    apply map_ext. intros field. apply orEmpty_default.
  - apply sha256hex_length.
  - apply sha256hex_isHex.
  - apply getKey_ext. intros field Hin. by rewrite (Hsame field Hin).
Qed.

(** ** Statements about the hash strategy *)

(** C10.  Two records that, on every compared field, either agree or are
    each empty or absent have the same fingerprint; a lookup table holds
    them in one slot, and the hash strategy classifies the pair as one
    common entry. *)
Theorem empty_or_absent_same_entry (fields : list string) (el1 el2 : Record) :
  (∀ field, field ∈ fields → sameOrEmpty (el1 !! field) (el2 !! field)) →
  getKey el1 fields = getKey el2 fields ∧
  buildLookupTable [el1; el2] fields = [(getKey el1 fields, el2)] ∧
  hashStrategy fields [el1] [el2] = mkStatus [el1] [] [].
Proof.
  intros Hsame.
  assert (getKey el1 fields = getKey el2 fields) as Hkey.
  { apply getKey_ext. intros field Hin. by apply orEmpty_sameOrEmpty, Hsame. }
  split; [done|]. split.
  - cbn [buildLookupTable fold_left tableSet]. by rewrite <- Hkey, String.eqb_refl.
  - cbn [hashStrategy buildLookupTable fold_left tableSet tableGet].
    by rewrite <- Hkey, String.eqb_refl.
Qed.

(** C6.  Swapping the two collections swaps [OnlyA] and [OnlyB], and the
    two [AB] buckets have the same number of records. *)
Theorem hashStrategy_swap (fields : list string) (origBib destBib : list Record) :
  OnlyA (hashStrategy fields destBib origBib) = OnlyB (hashStrategy fields origBib destBib) ∧
  OnlyB (hashStrategy fields destBib origBib) = OnlyA (hashStrategy fields origBib destBib) ∧
  length (AB (hashStrategy fields destBib origBib)) =
  length (AB (hashStrategy fields origBib destBib)).
Proof.
  rewrite !hashStrategy_buckets. cbn [AB OnlyA OnlyB].
  split; [done|]. split; [done|].
  rewrite !length_fmap. apply shared_keys_length; apply buildLookupTable_NoDup.
Qed.

Lemma table_values_split (P : string * Record → Prop) `{!∀ p, Decision (P p)}
      (t : Table) (x : Record) :
  x ∈ (filter P t).*2 ∨ x ∈ (filter (λ p, ¬ P p) t).*2 ↔ x ∈ t.*2.
Proof.
  rewrite !list_elem_of_fmap. split.
  - intros [(p & -> & [_ Hin]%list_elem_of_filter)|(p & -> & [_ Hin]%list_elem_of_filter)];
      by exists p.
  - intros (p & -> & Hin). destruct (decide (P p)) as [HP|HP]; [left|right];
      exists p; (split; [done|]); by apply list_elem_of_filter.
Qed.

(** C3, as the code has it.  Within a collection a fingerprint keeps one
    record, the last that carries it.  The records so kept from
    [origBib] are exactly the records of [AB] and [OnlyA], and no record is
    in both; a record so kept from [destBib] whose fingerprint has no
    counterpart in [origBib] is in [OnlyB]; and [AB] and [OnlyA] together
    count the distinct fingerprints of [origBib]. *)
Theorem hashStrategy_partition (fields : list string) (origBib destBib : list Record) :
  let r := hashStrategy fields origBib destBib in
  (∀ x, lastOfFingerprint fields origBib x ↔ x ∈ AB r ∨ x ∈ OnlyA r) ∧
  (∀ x, ¬ (x ∈ AB r ∧ x ∈ OnlyA r)) ∧
  (∀ b, lastOfFingerprint fields destBib b → noCounterpart fields origBib b → b ∈ OnlyB r) ∧
  length (AB r) + length (OnlyA r) = length (remove_dups (fingerprint fields <$> origBib)).
Proof.
  cbv zeta. rewrite hashStrategy_buckets. cbn [AB OnlyA OnlyB].
  set (listA := buildLookupTable origBib fields).
  set (listB := buildLookupTable destBib fields).
  split; [|split; [|split]].
  - intros x. rewrite table_values_split. symmetry. apply buildLookupTable_values.
  - intros x [([k v] & -> & [Hin HA]%list_elem_of_filter)%list_elem_of_fmap
                 ([k' v'] & Heq & [Hnin HA']%list_elem_of_filter)%list_elem_of_fmap].
    cbn [snd] in Heq. subst v'.
    apply buildLookupTable_entry in HA as [_ <-].
    apply buildLookupTable_entry in HA' as [_ <-]. done.
  - intros b Hlast Hnone. apply list_elem_of_fmap.
    exists (getKey b fields, b). split; [done|]. apply list_elem_of_filter. split.
    + unfold keyIn. cbn [fst]. rewrite tableGet_is_Some.
      intros (a & Ha & Hk)%buildLookupTable_keys. by apply (Hnone a Ha).
    + by apply buildLookupTable_entry.
  - rewrite !length_fmap, <- length_app, filter_app_complement.
    rewrite <- (length_fmap fst listA).
    apply Permutation_length, NoDup_Permutation.
    + apply buildLookupTable_NoDup.
    + apply NoDup_remove_dups.
    + intros k. unfold listA.
      rewrite elem_of_remove_dups, buildLookupTable_keys, list_elem_of_fmap.
      unfold fingerprint. split.
      * intros (el & Hin & <-). by exists el.
      * intros (el & -> & Hin). by exists el.
Qed.

(** ** The search of the bruteforce strategy *)

Section SearchFacts.

Implicit Types (element el best : Record) (fields : list string) (st : Search).

Lemma present_cons field fields el :
  present (field :: fields) el → is_Some (el !! field) ∧ present fields el.
Proof.
  intros H. split; [apply H; by left|]. intros f Hf. apply H. by right.
Qed.

(** With no best candidate yet, only the first field is looked at. *)
Lemma fieldLoop_unset element el field fields (cl : gmap string nat) (a b : string) :
  element !! field = Some a → el !! field = Some b →
  fieldLoop element el (field :: fields) (mkSearch None cl) =
  Return (if overRate (distance a b) (longer a b)
          then mkSearch None cl
          else mkSearch (Some el) {[ field := distance a b ]}).
Proof.
  intros Ha Hb. cbn [fieldLoop]. rewrite Ha, Hb.
  cbn [leven lengthOf mbind completion_bind smallest].
  fold (longer a b). by destruct (overRate _ _).
Qed.

Lemma fieldLoop_returns element el fields st :
  present fields element → present fields el →
  (∀ best, smallest st = Some best → present fields best) →
  ∃ st', fieldLoop element el fields st = Return st' ∧
         (st' = st ∨ smallest st' = Some el).
Proof.
  induction fields as [|field fields IH]; intros He Hel Hbest.
  - exists st. by split; [|left].
  - apply present_cons in He as [[a Ha] He].
    apply present_cons in Hel as [[b Hb] Hel].
    cbn [fieldLoop]. rewrite Ha, Hb. cbn [leven lengthOf mbind completion_bind].
    destruct (overRate _ _); [exists st; by split; [|left]|].
    destruct (smallest st) as [best|] eqn:Hs; [|eexists; split; [done|by right]].
    destruct (present_cons _ _ _ (Hbest best eq_refl)) as [[c Hc] Hbest'].
    rewrite Hc. cbn [leven].
    assert (∃ curr, orElse (computedLeven st !! field) (Return (distance a c))
                    = Return curr) as [curr ->].
    { destruct (computedLeven st !! field) as [[|n]|]; cbn [orElse]; eauto. }
    cbn [mbind completion_bind].
    destruct (curr <? distance a b); [exists st; by split; [|left]|].
    destruct (distance a b <? curr); [eexists; split; [done|by right]|].
    apply IH; [done..|]. intros best' [= <-]. done.
Qed.

Lemma fieldLoop_spec element el fields st :
  present fields element → present fields el →
  (∀ best, smallest st = Some best → present fields best) →
  ∃ st', fieldLoop element el fields st = Return st' ∧
         (st' = st ∨ smallest st' = Some el) ∧
         (smallest st' = None ↔ smallest st = None ∧ passesFirst element fields el = false).
Proof.
  intros He Hel Hbest.
  destruct (fieldLoop_returns element el fields st He Hel Hbest) as (st' & Hrun & Hst').
  exists st'. split; [done|]. split; [done|].
  destruct (smallest st) as [best|] eqn:Hs.
  { split; [|by intros [? _]]. destruct Hst' as [->|Hst']; congruence. }
  destruct fields as [|field fields].
  { cbn in Hrun. injection Hrun as <-. by rewrite Hs. }
  apply present_cons in He as [[a Ha] _]. apply present_cons in Hel as [[b Hb] _].
  destruct st as [s cl]. cbn in Hs. subst s.
  rewrite (fieldLoop_unset _ _ _ _ _ a b Ha Hb) in Hrun.
  cbn [passesFirst]. unfold passesRate. rewrite Ha, Hb.
  destruct (overRate _ _); injection Hrun as <-; cbn; split; try done.
  by intros [_ ?].
Qed.

Lemma candidateLoop_spec element fields (items : list Record) st :
  present fields element → Forall (present fields) items →
  (∀ best, smallest st = Some best → present fields best) →
  ∃ st', candidateLoop element fields items st = Return st' ∧
         (smallest st' = smallest st ∨ ∃ el, el ∈ items ∧ smallest st' = Some el) ∧
         (smallest st' = None ↔
          smallest st = None ∧ ∀ el, el ∈ items → passesFirst element fields el = false).
Proof.
  intros He Hitems. revert st.
  induction Hitems as [|el items Hel Hitems IH]; intros st Hbest.
  - exists st. split; [done|]. split; [by left|].
    split; [intros ?; split; [done|by intros ? ?%elem_of_nil] | by intros [? _]].
  - destruct (fieldLoop_spec element el fields st He Hel Hbest)
      as (st1 & Hrun1 & Hst1 & Hnone1).
    destruct (IH st1) as (st' & Hrun & Hst' & Hnone).
    { intros best Hb. destruct Hst1 as [->|Hst1]; [by apply Hbest|].
      rewrite Hst1 in Hb. by injection Hb as <-. }
    exists st'. cbn [candidateLoop]. rewrite Hrun1. split; [exact Hrun|]. split.
    + destruct Hst' as [Hst'|(x & Hx & Hst')].
      * destruct Hst1 as [->|Hst1]; [by left|].
        right. exists el. split; [by left | congruence].
      * right. exists x. split; [by right | done].
    + rewrite Hnone, Hnone1. split.
      * intros [[Hs Hfirst] Hrest]. split; [done|].
        intros x [->|Hx]%elem_of_cons; [done | by apply Hrest].
      * intros [Hs Hall]. split; [split; [done|]|].
        -- apply Hall. by left.
        -- intros x Hx. apply Hall. by right.
Qed.

Lemma findSmallestSimilar_returns element fields (items : list Record) :
  present fields element → Forall (present fields) items →
  ∃ r, findSmallestSimilar element fields items = Return r.
Proof.
  intros He Hitems.
  destruct (candidateLoop_spec element fields items (mkSearch None ∅) He Hitems)
    as (st' & Hrun & _); [done|].
  exists (smallest st'). unfold findSmallestSimilar. by rewrite Hrun.
Qed.

End SearchFacts.

(** C2, at the inputs where the code departs from it.  When the record or
    the first candidate lacks the first compared field, the search does not
    return: it raises a [TypeError]. *)
Theorem findSmallestSimilar_missing_field (element el : Record) (field : string)
        (fields : list string) (rest : list Record) :
  element !! field = None ∨ el !! field = None →
  findSmallestSimilar element (field :: fields) (el :: rest) = TypeError.
Proof.
  intros H. unfold findSmallestSimilar. cbn [candidateLoop fieldLoop].
  destruct (element !! field) as [a|], (el !! field) as [b|];
    cbn [leven lengthOf mbind completion_bind]; try done.
  by destruct H.
Qed.

(** ** The bruteforce strategy *)

Section BruteforceFacts.

Implicit Types (fields : list string) (status : Status).

Lemma originStep_found fields (destBib : list Record) (a : Record) status r :
  findSmallestSimilar a fields destBib = Return r →
  originStep fields destBib a status =
  Return (if r is Some _ then pushAB a status else pushOnlyA a status) ∧
  foundSimilar fields destBib a = (if r is Some _ then true else false) ∧
  foundNone fields destBib a = (if r is Some _ then false else true).
Proof.
  intros Hr. unfold originStep, foundSimilar, foundNone. rewrite Hr. by destruct r.
Qed.

Lemma destinyStep_found fields (origBib : list Record) (b : Record) status r :
  findSmallestSimilar b fields origBib = Return r →
  destinyStep fields origBib b status =
  Return (if r is Some _ then status else pushOnlyB b status).
Proof.
  intros Hr. unfold destinyStep. rewrite Hr. by destruct r.
Qed.

Lemma originPass fields (destBib items : list Record) status :
  Forall (λ a, ∃ r, findSmallestSimilar a fields destBib = Return r) items →
  forOf (originStep fields destBib) items status =
  Return (mkStatus (AB status ++ List.filter (foundSimilar fields destBib) items)
                   (OnlyA status ++ List.filter (foundNone fields destBib) items)
                   (OnlyB status)).
Proof.
  intros Hall. revert status.
  induction Hall as [|a items [r Hr] _ IH]; intros status.
  - cbn. rewrite !app_nil_r. by destruct status.
  - destruct (originStep_found fields destBib a status r Hr) as (Hstep & Hfound & Hnone).
    cbn [forOf List.filter]. rewrite Hstep, Hfound, Hnone.
    cbn [mbind completion_bind]. rewrite IH.
    destruct r as [m|]; cbn [AB OnlyA OnlyB pushAB pushOnlyA];
      by rewrite <- ?app_assoc, ?app_nil_r.
Qed.

Lemma destinyPass fields (origBib items : list Record) status :
  Forall (λ b, ∃ r, findSmallestSimilar b fields origBib = Return r) items →
  forOf (destinyStep fields origBib) items status =
  Return (mkStatus (AB status) (OnlyA status)
                   (OnlyB status ++ List.filter (foundNone fields origBib) items)).
Proof.
  intros Hall. revert status.
  induction Hall as [|b items [r Hr] _ IH]; intros status.
  - cbn. rewrite !app_nil_r. by destruct status.
  - destruct (originStep_found fields origBib b status r Hr) as (_ & _ & Hnone).
    cbn [forOf List.filter].
    rewrite (destinyStep_found fields origBib b status r Hr), Hnone.
    cbn [mbind completion_bind]. rewrite IH.
    destruct r as [m|]; cbn [AB OnlyA OnlyB pushOnlyB];
      by rewrite <- ?app_assoc.
Qed.

Lemma searches_return fields (targets items : list Record) :
  Forall (present fields) targets → Forall (present fields) items →
  Forall (λ a, ∃ r, findSmallestSimilar a fields targets = Return r) items.
Proof.
  intros Ht Hi. eapply Forall_impl; [exact Hi|].
  intros a Ha. by apply findSmallestSimilar_returns.
Qed.

(** Against an empty collection every search returns [undefined]. *)
Lemma foundNone_empty fields (b : Record) : foundNone fields [] b = true.
Proof. reflexivity. Qed.

Lemma filter_foundNone_empty fields (items : list Record) :
  List.filter (foundNone fields []) items = items.
Proof. induction items as [|b items IH]; [done|]. cbn. by rewrite IH. Qed.

(** The second loop of [hashStrategy] against an empty origin table. *)
Lemma destinyLoop_empty (t : Table) status :
  fold_left (λ status '(key, el),
               match tableGet [] key with
               | None => pushOnlyB el status
               | Some _ => status
               end) t status =
  mkStatus (AB status) (OnlyA status) (OnlyB status ++ t.*2).
Proof.
  revert status. induction t as [|[k v] t IH]; intros status.
  - cbn. rewrite app_nil_r. by destruct status.
  - cbn [fold_left tableGet]. rewrite IH. cbn. by rewrite <- app_assoc.
Qed.

End BruteforceFacts.


(** C5, as the code has it.  With an empty [origBib], the bruteforce
    strategy returns empty [AB] and [OnlyA] and [destBib] itself as
    [OnlyB]; the hash strategy returns empty [AB] and [OnlyA] and, as
    [OnlyB], the records its lookup table keeps of [destBib], which is
    [destBib] itself when no two of its records share a fingerprint. *)
Theorem empty_origin (fields : list string) (destBib : list Record) :
  bruteforceStrategy fields [] destBib = Return (mkStatus [] [] destBib) ∧
  hashStrategy fields [] destBib = mkStatus [] [] (buildLookupTable destBib fields).*2 ∧
  (NoDup (fingerprint fields <$> destBib) →
   hashStrategy fields [] destBib = mkStatus [] [] destBib).
Proof.
  assert (hashStrategy fields [] destBib
          = mkStatus [] [] (buildLookupTable destBib fields).*2) as Hhash.
  { unfold hashStrategy. cbn [buildLookupTable fold_left]. by rewrite destinyLoop_empty. }
  split; [|split; [done|]].
  - unfold bruteforceStrategy. cbn [forOf mbind completion_bind].
    rewrite destinyPass.
    + cbn. by rewrite filter_foundNone_empty.
    + apply Forall_forall. intros b _. by exists None.
  - intros Hnd. rewrite Hhash. f_equal.
    rewrite (buildLookupTable_NoDup_keys _ _ Hnd), <- list_fmap_compose.
    apply list_fmap_id.
Qed.

(** ** Evaluations: the claims at concrete inputs *)

(** Reference digests (FIPS 180-4 test vectors). *)
Example sha256hex_abc :
  Sha256.sha256hex "abc" = "ba7816bf8f01cfea414140de5dae2223b00361a396177a9cb410ff61f20015ad".
Proof. vm_compute. reflexivity. Qed.

Example sha256hex_empty :
  Sha256.sha256hex "" = "e3b0c44298fc1c149afbf4c8996fb92427ae41e4649b934ca495991b7852b855".
Proof. vm_compute. reflexivity. Qed.

Example sha256hex_two_blocks :
  Sha256.sha256hex "abcdbcdecdefdefgefghfghighijhijkijkljklmklmnlmnomnopnopq"
  = "248d6a61d20638b8e5c026930c3e6039a33ce45964ff2167f6ecedd419db06c1".
Proof. vm_compute. reflexivity. Qed.

Example distance_kitten_sitting : distance "kitten" "sitting" = 3.
Proof. reflexivity. Qed.

Example normalizeFields_default : normalizeFields ["key"; "title"] = ["key"; "TITLE"].
Proof. reflexivity. Qed.

(** Identical collections of one record: the record is common. *)
Example hashStrategy_same :
  hashStrategy ["key"; "TITLE"] [deepA] [deepA] = mkStatus [deepA] [] [].
Proof. vm_compute. reflexivity. Qed.

(** "Neural Nets" against "Neural Networks": four edits over fifteen
    characters, close enough either way round. *)
Example bruteforceStrategy_nets :
  bruteforceStrategy ["TITLE"] [netsA] [netsB] = Return (mkStatus [netsA] [] []).
Proof. vm_compute. reflexivity. Qed.


(** C1, as stated, fails: "Algorithms" and "Algorit" are three edits apart
    over a longer length of ten, a normalized distance of exactly 0.3, and
    the candidate is matched. *)
Lemma threshold_boundary_matched :
  algorithms !! "TITLE" = Some "Algorithms" ∧
  algorit !! "TITLE" = Some "Algorit" ∧
  distance "Algorithms" "Algorit" = 3 ∧
  longer "Algorithms" "Algorit" = 10 ∧
  overRate 3 10 = false ∧
  findSmallestSimilar algorithms ["TITLE"] [algorit] = Return (Some algorit) ∧
  bruteforceStrategy ["TITLE"] [algorithms] [algorit] = Return (mkStatus [algorithms] [] []).
Proof.
  split; [|split; [|split; [|split; [|split; [|split]]]]]; vm_compute; reflexivity.
Qed.

(** C2 at a failing input: a record without a title, compared on the
    title. *)
Lemma findSmallestSimilar_missing_field_witness :
  findSmallestSimilar untitled ["TITLE"] [deepA] = TypeError.
Proof.
  apply (findSmallestSimilar_missing_field untitled deepA "TITLE" [] []).
  left. reflexivity.
Defined.

Example bruteforceStrategy_missing_field :
  bruteforceStrategy ["TITLE"] [untitled] [deepA] = TypeError ∧
  bruteforceStrategy ["TITLE"] [deepA] [untitled] = TypeError ∧
  hashStrategy ["TITLE"] [untitled] [deepA] = mkStatus [] [untitled] [deepA].
Proof. split; [|split]; vm_compute; reflexivity. Qed.

Lemma same_title_differ :
  (deepA ≠ deepA') ∧ (graphB ≠ graphB').
Proof.
  split; intros H; apply (f_equal (λ r : Record, r !! "key")) in H;
    vm_compute in H; discriminate H.
Qed.

(** C3, as stated, fails: of two records of a collection that share a
    fingerprint only the last reaches a bucket.  [graphB] stands in the
    second collection and its fingerprint has no counterpart in the first,
    yet it is not in [OnlyB]; [deepA] stands in the first collection and is
    in neither [AB] nor [OnlyA]. *)
Lemma partition_counterexample :
  hashStrategy ["TITLE"] [deepA; deepA'] [graphB; graphB'] = mkStatus [] [deepA'] [graphB'] ∧
  (graphB ∈ [graphB; graphB'] ∧
   noCounterpart ["TITLE"] [deepA; deepA'] graphB ∧
   graphB ∉ OnlyB (hashStrategy ["TITLE"] [deepA; deepA'] [graphB; graphB'])) ∧
  (deepA ∈ [deepA; deepA'] ∧
   (deepA ∉ AB (hashStrategy ["TITLE"] [deepA; deepA'] [graphB; graphB'])) ∧
   (deepA ∉ OnlyA (hashStrategy ["TITLE"] [deepA; deepA'] [graphB; graphB']))).
Proof.
  assert (hashStrategy ["TITLE"] [deepA; deepA'] [graphB; graphB']
          = mkStatus [] [deepA'] [graphB']) as Heval by (vm_compute; reflexivity).
  destruct same_title_differ as [HA HB].
  rewrite Heval. cbn [AB OnlyA OnlyB].
  split; [done|]. split; [split; [by left|split]|split; [by left|split]].
  - intros a Ha. apply elem_of_cons in Ha as [->|Ha];
      [|apply list_elem_of_singleton in Ha as ->]; vm_compute; discriminate.
  - by intros ?%list_elem_of_singleton.
  - apply not_elem_of_nil.
  - by intros ?%list_elem_of_singleton.
Qed.

(** C5, as stated, fails for the hash strategy: two records of the second
    collection with one fingerprint leave one record in [OnlyB]. *)
Lemma empty_origin_counterexample :
  hashStrategy ["TITLE"] [] [graphB; graphB'] = mkStatus [] [] [graphB'] ∧
  OnlyB (hashStrategy ["TITLE"] [] [graphB; graphB']) ≠ [graphB; graphB'].
Proof.
  assert (hashStrategy ["TITLE"] [] [graphB; graphB'] = mkStatus [] [] [graphB'])
    as Heval by (vm_compute; reflexivity).
  rewrite Heval. split; [done|]. cbn [OnlyB]. discriminate.
Qed.

Lemma empty_origin_witness :
  hashStrategy ["TITLE"] [] [deepA; graphB] = mkStatus [] [] [deepA; graphB].
Proof.
  apply (empty_origin ["TITLE"] [deepA; graphB]).
  apply (bool_decide_unpack _). vm_compute. exact I.
Defined.


Example bruteforceStrategy_asymmetric :
  bruteforceStrategy ["TITLE"] [netsA; deepA] [netsB] = Return (mkStatus [netsA] [deepA] []) ∧
  foundSimilar ["TITLE"] [netsA; deepA] netsB = true ∧
  destinyStep ["TITLE"] [netsA; deepA] netsB (mkStatus [netsA] [deepA] [])
  = Return (mkStatus [netsA] [deepA] []).
Proof. split; [|split]; vm_compute; reflexivity. Qed.

Lemma getKey_fingerprint_witness :
  getKey deepA ["key"; "TITLE"] =
    Sha256.sha256hex
      (join "###" (map (λ field, default "" (deepA !! field)) ["key"; "TITLE"])) ∧
  String.length (getKey deepA ["key"; "TITLE"]) = 64 ∧
  forallb Sha256.isHex (list_ascii_of_string (getKey deepA ["key"; "TITLE"])) = true ∧
  getKey deepA ["key"; "TITLE"] = getKey deepYear ["key"; "TITLE"].
Proof.
  apply (getKey_fingerprint ["key"; "TITLE"] deepA deepYear).
  intros field Hin. apply elem_of_cons in Hin as [->|Hin];
    [|apply list_elem_of_singleton in Hin as ->]; vm_compute; reflexivity.
Defined.

Example getKey_deepA :
  getKey deepA ["key"; "TITLE"]
  = "7f808962069e05edcc51cf823fabe252828c80724f73fe0ed0d1861d96f76d63".
Proof. vm_compute. reflexivity. Qed.

Lemma empty_or_absent_same_entry_witness :
  getKey deepNote ["TITLE"; "NOTE"] = getKey deepA ["TITLE"; "NOTE"] ∧
  buildLookupTable [deepNote; deepA] ["TITLE"; "NOTE"]
  = [(getKey deepNote ["TITLE"; "NOTE"], deepA)] ∧
  hashStrategy ["TITLE"; "NOTE"] [deepNote] [deepA] = mkStatus [deepNote] [] [].
Proof.
  apply (empty_or_absent_same_entry ["TITLE"; "NOTE"] deepNote deepA).
  intros field Hin. apply elem_of_cons in Hin as [->|Hin];
    [|apply list_elem_of_singleton in Hin as ->].
  - left. vm_compute. reflexivity.
  - right. split; [right | left]; vm_compute; reflexivity.
Defined.

(** * Further properties *)

(** ** The quotient in doubles

    [newLeven / max > 0.3] is a comparison of doubles.  For the integers a
    string length can be, it decides as the exact fraction does: the
    quotient of two integers below 2^53 is rounded to the nearest double,
    the literal [0.3] is the double just below three tenths, and no
    fraction with a denominator up to 2^52 falls between three tenths and
    the midpoint above that double. *)

Section DoubleFacts.

Local Open Scope Z_scope.

Lemma digits2_size (p : positive) : digits2_pos p = Pos.size p.
Proof. induction p; simpl; congruence. Qed.

Lemma digits_bounds (p : positive) :
  2 ^ (Zpos (digits2_pos p) - 1) <= Zpos p < 2 ^ Zpos (digits2_pos p).
Proof.
  rewrite digits2_size. split.
  - pose proof (Pos.size_le p) as H.
    assert (Zpos (2 ^ Pos.size p) <= Zpos p~0) as H' by exact H.
    rewrite Pos2Z.inj_pow, Pos2Z.inj_xO in H'.
    assert (2 ^ Zpos (Pos.size p) = 2 * 2 ^ (Zpos (Pos.size p) - 1)) as Hpow.
    { rewrite <- Z.pow_succ_r by lia. f_equal. lia. }
    lia.
  - pose proof (Pos.size_gt p) as H.
    assert (Zpos p < Zpos (2 ^ Pos.size p)) as H' by exact H.
    now rewrite Pos2Z.inj_pow in H'.
Qed.

Lemma digits_unique (p : positive) (d : Z) :
  2 ^ (d - 1) <= Zpos p < 2 ^ d -> 1 <= d -> Zpos (digits2_pos p) = d.
Proof.
  intros [Hlo Hhi] Hd. pose proof (digits_bounds p) as [Hlo' Hhi'].
  set (s := Zpos (digits2_pos p)) in *.
  assert (1 <= s) by (unfold s; lia).
  assert (d - 1 < s) by (apply (Z.pow_lt_mono_r_iff 2); lia).
  assert (s - 1 < d) by (apply (Z.pow_lt_mono_r_iff 2); lia).
  lia.
Qed.

Lemma iter_xO (p k : positive) : Zpos (Pos.iter xO p k) = Zpos p * 2 ^ Zpos k.
Proof.
  revert p. induction k using Pos.peano_ind; intros p.
  - simpl. lia.
  - rewrite Pos.iter_succ, Pos2Z.inj_xO, IHk, Pos2Z.inj_succ, Z.pow_succ_r by lia. lia.
Qed.

(** A positive integer below 2^53 as a double. *)
Lemma normalize_pos (p : positive) :
  Zpos p < 2 ^ 53 ->
  exists M : positive,
    binary_normalize prec emax (Zpos p) 0 false
    = S754_finite false M (Zpos (digits2_pos p) - 53) /\
    Zpos M = Zpos p * 2 ^ (53 - Zpos (digits2_pos p)) /\
    Zpos (digits2_pos M) = 53.
Proof.
  intros Hp. pose proof (digits_bounds p) as [Hlo Hhi].
  set (d := Zpos (digits2_pos p)) in *.
  assert (1 <= d <= 53) as Hd.
  { split; [unfold d; lia|]. assert (d - 1 < 53); [|lia].
    apply (Z.pow_lt_mono_r_iff 2); lia. }
  unfold binary_normalize, binary_round.
  assert (fexp prec emax (d + 0) = d - 53) as Hfexp.
  { unfold fexp, emin, prec, emax. lia. }
  fold d. rewrite Hfexp.
  unfold shl_align. 
  destruct (d - 53 - 0) as [|k|k] eqn:Hk; try lia.
  - (* d = 53 *)
    exists p. assert (d = 53) as Hd53 by lia.
    split; [|split; [rewrite Hd53; simpl; lia | exact Hd53]].
    unfold binary_round_aux, shr_fexp. cbn [Zdigits2]. fold d.
    rewrite Z.add_0_r. cbn [shr_record_of_loc].
    assert (fexp prec emax d - 0 = 0) as -> by (unfold fexp, emin, prec, emax; lia).
    cbn [shr shr_m loc_of_shr_record round_nearest_even]. cbn [Zdigits2]. fold d.
    rewrite Z.add_0_r.
    assert (fexp prec emax d - 0 = 0) as -> by (unfold fexp, emin, prec, emax; lia).
    cbn [shr shr_m shr_record_of_loc]. rewrite Hd53. reflexivity.
  - (* d < 53 *)
    set (M := Pos.iter xO p k).
    assert (Zpos M = Zpos p * 2 ^ (53 - d)) as HM.
    { unfold M. rewrite iter_xO. f_equal. f_equal. lia. }
    assert (Zpos (digits2_pos M) = 53) as HdM.
    { apply digits_unique; [|lia]. rewrite HM.
      replace (2 ^ (53 - 1)) with (2 ^ (d - 1) * 2 ^ (53 - d))
        by (rewrite <- Z.pow_add_r by lia; f_equal; lia).
      replace (2 ^ 53) with (2 ^ d * 2 ^ (53 - d))
        by (rewrite <- Z.pow_add_r by lia; f_equal; lia).
      assert (0 < 2 ^ (53 - d)) by (apply Z.pow_pos_nonneg; lia).
      split; [apply Z.mul_le_mono_nonneg_r; lia | apply Z.mul_lt_mono_pos_r; lia]. }
    exists M. split; [|split; assumption].
    unfold binary_round_aux, shr_fexp. cbn [Zdigits2]. rewrite HdM.
    cbn [shr_record_of_loc].
    assert (fexp prec emax (53 + (d - 53)) - (d - 53) = 0) as ->
        by (unfold fexp, emin, prec, emax; lia).
    cbn [shr shr_m loc_of_shr_record round_nearest_even]. cbn [Zdigits2]. rewrite HdM.
    assert (fexp prec emax (53 + (d - 53)) - (d - 53) = 0) as ->
        by (unfold fexp, emin, prec, emax; lia).
    cbn [shr shr_m shr_record_of_loc].
    assert ((d - 53 <=? emax - prec) = true) as -> by (apply Z.leb_le; unfold emax, prec; lia).
    reflexivity.
Qed.

Lemma ltb_rate (mz : positive) (ez : Z) :
  SFltb SIMILARITY_RATE (S754_finite false mz ez)
  = (-54 <? ez) || ((ez =? -54) && (5404319552844595 <? Zpos mz)).
Proof.
  unfold SFltb, SFcompare, SIMILARITY_RATE.
  destruct (Z.compare_spec (-54) ez) as [Heq|Hlt|Hgt].
  - subst ez. rewrite Z.ltb_irrefl, Z.eqb_refl. cbn [orb andb].
    rewrite Pos.compare_cont_spec. cbn [Pos.switch_Eq].
    unfold Z.ltb. cbn [Z.compare].
    destruct (5404319552844595 ?= mz)%positive; reflexivity.
  - apply Z.ltb_lt in Hlt. now rewrite Hlt.
  - assert ((-54 <? ez) = false) as -> by (apply Z.ltb_ge; lia).
    assert ((ez =? -54) = false) as -> by (apply Z.eqb_neq; lia). reflexivity.
Qed.

Lemma shr_fexp_digits (m : positive) (e : Z) (l : location) (d : Z) :
  Zpos (digits2_pos m) = d -> -1000 <= d + e ->
  shr_fexp prec emax (Zpos m) e l = shr (shr_record_of_loc (Zpos m) l) e (d - 53).
Proof.
  intros Hd He. unfold shr_fexp. cbn [Zdigits2]. rewrite Hd. f_equal.
  unfold fexp, emin, prec, emax. lia.
Qed.

Lemma loc_of_record_of_loc (m : Z) (l : location) :
  loc_of_shr_record (shr_record_of_loc m l) = l.
Proof. destruct l as [|[]]; reflexivity. Qed.

Lemma shr_m_record_of_loc (m : Z) (l : location) : shr_m (shr_record_of_loc m l) = m.
Proof. destruct l as [|[]]; reflexivity. Qed.

Lemma round_nearest_even_spec (m : Z) (l : location) :
  round_nearest_even m l = m + Z.b2z (roundsUp m l).
Proof.
  destruct l as [|[]]; cbn [round_nearest_even roundsUp Z.b2z]; try lia.
  rewrite <- Z.negb_even. destruct (Z.even m); cbn; lia.
Qed.

(** The last step of rounding: a mantissa of 53 digits stays, 2^53 is
    renormalised. *)
Lemma finish_round (q1 : positive) (e : Z) :
  2 ^ 52 <= Zpos q1 <= 2 ^ 53 -> -600 <= e <= 600 ->
  (let '(mrs, e2) := shr_fexp prec emax (Zpos q1) e loc_Exact in
   match shr_m mrs with
   | Z0 => S754_zero false
   | Zpos m => if e2 <=? emax - prec then S754_finite false m e2 else S754_infinity false
   | Zneg _ => S754_nan
   end)
  = if Zpos q1 <? 2 ^ 53 then S754_finite false q1 e
    else S754_finite false 4503599627370496 (e + 1).
Proof.
  intros Hq He.
  destruct (Z.ltb_spec (Zpos q1) (2 ^ 53)) as [Hlt|Hge].
  - rewrite (shr_fexp_digits q1 e loc_Exact 53); [|apply digits_unique; lia|lia].
    change (53 - 53) with 0. cbn [shr shr_record_of_loc shr_m].
    assert ((e <=? emax - prec) = true) as -> by (apply Z.leb_le; unfold emax, prec; lia).
    reflexivity.
  - assert (q1 = 9007199254740992%positive) as -> by lia.
    rewrite (shr_fexp_digits _ e loc_Exact 54); [|reflexivity|lia].
    change (54 - 53) with 1. cbn [shr shr_record_of_loc shr_m SpecFloat.iter_pos shr_1 orb].
    assert ((e + 1 <=? emax - prec) = true) as -> by (apply Z.leb_le; unfold emax, prec; lia).
    reflexivity.
Qed.

Lemma round_aux_53 (q : positive) (e : Z) (l : location) :
  2 ^ 52 <= Zpos q < 2 ^ 53 -> -500 <= e <= 500 ->
  binary_round_aux prec emax false (Zpos q) e l =
  let q1 := Zpos q + Z.b2z (roundsUp (Zpos q) l) in
  if q1 <? 2 ^ 53 then S754_finite false (Z.to_pos q1) e
  else S754_finite false 4503599627370496 (e + 1).
Proof.
  intros Hq He. cbv zeta. unfold binary_round_aux.
  rewrite (shr_fexp_digits q e l 53); [|apply digits_unique; lia|lia].
  change (53 - 53) with 0. cbn [shr].
  rewrite shr_m_record_of_loc, loc_of_record_of_loc, round_nearest_even_spec.
  set (q1 := Zpos q + Z.b2z (roundsUp (Zpos q) l)).
  assert (2 ^ 52 <= q1 <= 2 ^ 53) as Hq1.
  { unfold q1. destruct (roundsUp (Zpos q) l); cbn [Z.b2z]; lia. }
  rewrite <- (Z2Pos.id q1) at 1 2 by lia.
  rewrite finish_round by (rewrite ?Z2Pos.id; lia).
  rewrite Z2Pos.id by lia. reflexivity.
Qed.

Lemma round_aux_54 (p : positive) (b : bool) (e : Z) (l : location) :
  2 ^ 52 <= Zpos p < 2 ^ 53 -> -500 <= e <= 500 ->
  binary_round_aux prec emax false (Zpos (if b then p~1 else p~0)%positive) e l =
  let l' := loc_of_shr_record
              {| shr_m := Zpos p; shr_r := b;
                 shr_s := match l with loc_Exact => false | _ => true end |} in
  let q1 := Zpos p + Z.b2z (roundsUp (Zpos p) l') in
  if q1 <? 2 ^ 53 then S754_finite false (Z.to_pos q1) (e + 1)
  else S754_finite false 4503599627370496 (e + 1 + 1).
Proof.
  intros Hp He. cbv zeta. unfold binary_round_aux.
  rewrite (shr_fexp_digits _ e l 54); [| |lia].
  2:{ apply digits_unique; [|lia]. change (2 ^ (54 - 1)) with (2 ^ 53).
      destruct b; [rewrite (Pos2Z.inj_xI p) | rewrite (Pos2Z.inj_xO p)]; lia. }
  change (54 - 53) with 1. cbn [shr SpecFloat.iter_pos].
  assert (shr_1 (shr_record_of_loc (Zpos (if b then p~1 else p~0)%positive) l)
          = {| shr_m := Zpos p; shr_r := b;
               shr_s := match l with loc_Exact => false | _ => true end |}) as ->.
  { destruct b, l as [|[]]; reflexivity. }
  cbn [shr_m]. rewrite round_nearest_even_spec.
  set (l' := loc_of_shr_record _).
  set (q1 := Zpos p + Z.b2z (roundsUp (Zpos p) l')).
  assert (2 ^ 52 <= q1 <= 2 ^ 53) as Hq1.
  { unfold q1. destruct (roundsUp (Zpos p) l'); cbn [Z.b2z]; lia. }
  rewrite <- (Z2Pos.id q1) at 1 2 by lia.
  rewrite finish_round by (rewrite ?Z2Pos.id; lia).
  rewrite Z2Pos.id by lia. reflexivity.
Qed.

Lemma new_location_spec (M r : Z) :
  0 < M -> 0 <= r < M ->
  new_location M r = if r =? 0 then loc_Exact else loc_Inexact (2 * r ?= M).
Proof.
  intros HM Hr. unfold new_location, new_location_even, new_location_odd.
  destruct (Z.even M) eqn:Hev; destruct (r =? 0); try reflexivity.
  f_equal.
  assert (Z.odd M = true) as Hodd by (rewrite <- Z.negb_even, Hev; reflexivity).
  apply Z.odd_spec in Hodd as [k Hk].
  destruct (Z.compare_spec (2 * r + 1) M), (Z.compare_spec (2 * r) M); try reflexivity; lia.
Qed.

Lemma div_core (M1 M2 : positive) (E1 E2 : Z) :
  Zpos (digits2_pos M1) = 53 -> Zpos (digits2_pos M2) = 53 ->
  -52 <= E1 <= 0 -> -52 <= E2 <= 0 ->
  SFdiv_core_binary prec emax (Zpos M1) E1 (Zpos M2) E2
  = (Zpos M1 * 2 ^ 53 / Zpos M2, E1 - E2 - 53,
     new_location (Zpos M2) ((Zpos M1 * 2 ^ 53) mod Zpos M2)).
Proof.
  intros H1 H2 HE1 HE2. unfold SFdiv_core_binary. cbn [Zdigits2]. rewrite H1, H2.
  assert (Z.min (fexp prec emax (53 + E1 - (53 + E2))) (E1 - E2) = E1 - E2 - 53) as ->.
  { unfold fexp, emin, prec, emax. lia. }
  replace (E1 - E2 - (E1 - E2 - 53)) with 53 by lia.
  rewrite Z.shiftl_mul_pow2 by lia.
  unfold Z.div, Z.modulo.
  destruct (Z.div_eucl (Zpos M1 * 2 ^ 53) (Zpos M2)). reflexivity.
Qed.

Lemma bool_eq_iff (a b : bool) : (a = true <-> b = true) -> a = b.
Proof. destruct a, b; intuition congruence. Qed.

Lemma critical_54 (p : Z) (b st : bool) :
  (5404319552844595 <?
   p + Z.b2z (roundsUp p (loc_of_shr_record {| shr_m := p; shr_r := b; shr_s := st |})))
  = (10808639105689191 <=? 2 * p + Z.b2z b).
Proof.
  apply bool_eq_iff. rewrite Z.ltb_lt, Z.leb_le.
  destruct b, st; cbn [loc_of_shr_record roundsUp Z.b2z]; try lia.
  destruct (Z.eq_dec p 5404319552844595) as [->|Hne]; [cbn; lia|].
  destruct (Z.odd p); cbn [Z.b2z]; lia.
Qed.

Lemma critical_53 (q r M : Z) :
  0 < M -> 0 <= r < M ->
  (5404319552844595 <?
   q + Z.b2z (roundsUp q (if r =? 0 then loc_Exact else loc_Inexact (2 * r ?= M))))
  = (10808639105689191 * M <=? 2 * (M * q + r)).
Proof.
  intros HM Hr. apply bool_eq_iff. rewrite Z.ltb_lt, Z.leb_le.
  destruct (Z.lt_trichotomy q 5404319552844595) as [Hlt|[->|Hgt]].
  - assert (Z.b2z (roundsUp q (if r =? 0 then loc_Exact
                               else loc_Inexact (2 * r ?= M))) <= 1)
      by (destruct (roundsUp _ _); cbn; lia).
    split; [lia|]. intros H'. exfalso.
    assert (M * q <= M * 5404319552844594) by (apply Z.mul_le_mono_nonneg_l; lia).
    lia.
  - destruct (Z.eqb_spec r 0) as [->|Hr0]; cbn [roundsUp Z.b2z]; [lia|].
    destruct (Z.compare_spec (2 * r) M); cbn [roundsUp Z.b2z Z.odd]; lia.
  - assert (0 <= Z.b2z (roundsUp q (if r =? 0 then loc_Exact
                                    else loc_Inexact (2 * r ?= M))))
      by (destruct (roundsUp _ _); cbn; lia).
    split; [|lia]. intros _.
    assert (M * 5404319552844596 <= M * q) by (apply Z.mul_le_mono_nonneg_l; lia).
    lia.
Qed.

Lemma pow2_ge (a b : Z) : 0 <= a <= b -> 2 ^ a <= 2 ^ b.
Proof. intros H. apply Z.pow_le_mono_r; lia. Qed.

Lemma div_gt_rate (M1 M2 : positive) (E1 E2 : Z) :
  2 ^ 52 <= Zpos M1 < 2 ^ 53 -> 2 ^ 52 <= Zpos M2 < 2 ^ 53 ->
  -52 <= E1 <= 0 -> -52 <= E2 <= 0 ->
  SFltb SIMILARITY_RATE (SFdiv prec emax (S754_finite false M1 E1) (S754_finite false M2 E2))
  = (10808639105689191 * Zpos M2 <=? Zpos M1 * 2 ^ (E1 - E2 + 55)).
Proof.
  intros H1 H2 HE1 HE2.
  unfold SFdiv. rewrite div_core by (try apply digits_unique; lia).
  cbn [xorb].
  set (q := Zpos M1 * 2 ^ 53 / Zpos M2). set (r := (Zpos M1 * 2 ^ 53) mod Zpos M2).
  assert (Zpos M1 * 2 ^ 53 = Zpos M2 * q + r) as Hdiv by (apply Z.div_mod; lia).
  assert (0 <= r < Zpos M2) as Hr by (apply Z.mod_pos_bound; lia).
  assert (2 ^ 52 <= q < 2 ^ 54) as Hq.
  { split.
    - apply Z.div_le_lower_bound; [lia|].
      assert (Zpos M2 * 2 ^ 52 <= 2 ^ 53 * 2 ^ 52) by (apply Z.mul_le_mono_nonneg_r; lia).
      assert (2 ^ 52 * 2 ^ 53 <= Zpos M1 * 2 ^ 53) by (apply Z.mul_le_mono_nonneg_r; lia).
      lia.
    - apply Z.div_lt_upper_bound; [lia|].
      assert (2 ^ 52 * 2 ^ 54 <= Zpos M2 * 2 ^ 54) by (apply Z.mul_le_mono_nonneg_r; lia).
      assert (Zpos M1 * 2 ^ 53 < 2 ^ 53 * 2 ^ 53) by (apply Z.mul_lt_mono_pos_r; lia).
      lia. }
  rewrite new_location_spec by lia.
  set (k := E1 - E2). assert (-52 <= k <= 52) as Hk by (unfold k; lia).
  set (P := 2 ^ (k + 55)).
  destruct q as [|qp|qp] eqn:Hqp; try lia.
  destruct (Z.lt_ge_cases (Zpos qp) (2 ^ 53)) as [Hsmall|Hbig].
  - (* the quotient has 53 digits: M1 < M2 *)
    assert (Zpos M1 < Zpos M2) as Hlt.
    { apply (Z.mul_lt_mono_pos_r (2 ^ 53)); [lia|].
      assert (Zpos M2 * Zpos qp <= Zpos M2 * (2 ^ 53 - 1))
        by (apply Z.mul_le_mono_nonneg_l; lia).
      lia. }
    rewrite round_aux_53 by lia. cbv zeta.
    set (q1 := Zpos qp + Z.b2z (roundsUp (Zpos qp) _)).
    assert (Zpos qp <= q1 <= Zpos qp + 1) as Hq1
        by (unfold q1; destruct (roundsUp _ _); cbn [Z.b2z]; lia).
    destruct (Z.lt_trichotomy k (-1)) as [Hk1|[Hk1|Hk1]].
    + (* below the binade of 0.3 *)
      assert (P <= 2 ^ 53) as HP by (apply pow2_ge; lia).
      assert (0 < P) as HP0 by (apply Z.pow_pos_nonneg; lia).
      assert (Zpos M1 * P <= Zpos M1 * 2 ^ 53) by (apply Z.mul_le_mono_nonneg_l; lia).
      assert (Zpos M1 * 2 ^ 53 < Zpos M2 * 2 ^ 53) by (apply Z.mul_lt_mono_pos_r; lia).
      assert ((10808639105689191 * Zpos M2 <=? Zpos M1 * P) = false) as ->
          by (apply Z.leb_gt; lia).
      destruct (q1 <? 2 ^ 53); rewrite ltb_rate.
      * assert ((-54 <? k - 53) = false) as -> by (apply Z.ltb_ge; lia).
        assert ((k - 53 =? -54) = false) as -> by (apply Z.eqb_neq; lia). reflexivity.
      * assert ((-54 <? k - 53 + 1) = false) as -> by (apply Z.ltb_ge; lia).
        rewrite andb_false_r. reflexivity.
    + (* the binade of 0.3 *)
      assert (P = 2 ^ 54) as -> by (unfold P; rewrite Hk1; reflexivity).
      replace (Zpos M1 * 2 ^ 54) with (2 * (Zpos M2 * Zpos qp + r)) by lia.
      rewrite <- (critical_53 (Zpos qp) r (Zpos M2)) by lia. fold q1.
      destruct (Z.ltb_spec q1 (2 ^ 53)) as [Hq1s|Hq1b]; rewrite ltb_rate, Hk1.
      * cbn [Z.sub Z.add Z.opp Z.pos_sub Z.ltb Z.eqb Z.compare Pos.compare
             Pos.compare_cont orb andb Pos.eqb].
        rewrite Z2Pos.id by lia. reflexivity.
      * cbn [orb]. symmetry. apply Z.ltb_lt. lia.
    + (* above *)
      assert (2 ^ 55 <= P) as HP by (apply pow2_ge; lia).
      assert (Zpos M1 * 2 ^ 55 <= Zpos M1 * P) by (apply Z.mul_le_mono_nonneg_l; lia).
      assert (2 ^ 52 * 2 ^ 55 <= Zpos M1 * 2 ^ 55) by (apply Z.mul_le_mono_nonneg_r; lia).
      assert ((10808639105689191 * Zpos M2 <=? Zpos M1 * P) = true) as ->
          by (apply Z.leb_le; lia).
      destruct (q1 <? 2 ^ 53); rewrite ltb_rate.
      * assert ((-54 <? k - 53) = true) as -> by (apply Z.ltb_lt; lia). reflexivity.
      * assert ((-54 <? k - 53 + 1) = true) as -> by (apply Z.ltb_lt; lia). reflexivity.
  - (* the quotient has 54 digits: M2 <= M1 *)
    assert (Zpos M2 <= Zpos M1) as Hle.
    { apply (Z.mul_le_mono_pos_r _ _ (2 ^ 53)); [lia|].
      assert (Zpos M2 * 2 ^ 53 <= Zpos M2 * Zpos qp)
        by (apply Z.mul_le_mono_nonneg_l; lia).
      lia. }
    assert (exists (p : positive) (b : bool),
               qp = (if b then p~1 else p~0)%positive /\ 2 ^ 52 <= Zpos p < 2 ^ 53)
      as (p & b & -> & Hp).
    { destruct qp as [p|p|]; [exists p, true|exists p, false|lia];
        (split; [reflexivity|lia]). }
    assert (Zpos (if b then p~1 else p~0)%positive = 2 * Zpos p + Z.b2z b) as Hqb
        by (destruct b; cbn [Z.b2z]; lia).
    rewrite round_aux_54 by lia. cbv zeta.
    set (st := match (if r =? 0 then loc_Exact else loc_Inexact (2 * r ?= Zpos M2)) with
               | loc_Exact => false | _ => true end).
    set (q1 := Zpos p + Z.b2z (roundsUp (Zpos p) _)).
    assert (Zpos p <= q1 <= Zpos p + 1) as Hq1
        by (unfold q1; destruct (roundsUp _ _); cbn [Z.b2z]; lia).
    destruct (Z.lt_trichotomy k (-2)) as [Hk2|[Hk2|Hk2]].
    + assert (P <= 2 ^ 52) as HP by (apply pow2_ge; lia).
      assert (0 < P) as HP0 by (apply Z.pow_pos_nonneg; lia).
      assert (Zpos M1 * P <= Zpos M1 * 2 ^ 52) by (apply Z.mul_le_mono_nonneg_l; lia).
      assert (Zpos M1 * 2 ^ 52 < 2 ^ 53 * 2 ^ 52) by (apply Z.mul_lt_mono_pos_r; lia).
      assert (2 ^ 53 * 2 ^ 52 <= 2 ^ 53 * Zpos M2) by (apply Z.mul_le_mono_nonneg_l; lia).
      assert ((10808639105689191 * Zpos M2 <=? Zpos M1 * P) = false) as ->
          by (apply Z.leb_gt; lia).
      destruct (q1 <? 2 ^ 53); rewrite ltb_rate.
      * assert ((-54 <? k - 53 + 1) = false) as -> by (apply Z.ltb_ge; lia).
        assert ((k - 53 + 1 =? -54) = false) as -> by (apply Z.eqb_neq; lia). reflexivity.
      * assert ((-54 <? k - 53 + 1 + 1) = false) as -> by (apply Z.ltb_ge; lia).
        rewrite andb_false_r. reflexivity.
    + assert (P = 2 ^ 53) as -> by (unfold P; rewrite Hk2; reflexivity).
      rewrite Hdiv, Hqb.
      assert ((10808639105689191 * Zpos M2 <=? Zpos M2 * (2 * Zpos p + Z.b2z b) + r)
              = (10808639105689191 <=? 2 * Zpos p + Z.b2z b)) as ->.
      { apply bool_eq_iff. rewrite !Z.leb_le. split; intros H'.
        - destruct (Z.le_gt_cases 10808639105689191 (2 * Zpos p + Z.b2z b)) as [|Hc];
            [assumption|exfalso].
          assert (Zpos M2 * (2 * Zpos p + Z.b2z b) <= Zpos M2 * 10808639105689190)
            by (apply Z.mul_le_mono_nonneg_l; lia).
          lia.
        - assert (Zpos M2 * 10808639105689191 <= Zpos M2 * (2 * Zpos p + Z.b2z b))
            by (apply Z.mul_le_mono_nonneg_l; lia).
          lia. }
      rewrite <- (critical_54 (Zpos p) b st). fold q1.
      destruct (Z.ltb_spec q1 (2 ^ 53)) as [Hq1s|Hq1b]; rewrite ltb_rate, Hk2.
      * cbn [Z.sub Z.add Z.opp Z.pos_sub Z.ltb Z.eqb Z.compare Pos.compare
             Pos.compare_cont orb andb Pos.eqb].
        rewrite Z2Pos.id by lia. reflexivity.
      * cbn [orb]. symmetry. apply Z.ltb_lt. lia.
    + assert (2 ^ 54 <= P) as HP by (apply pow2_ge; lia).
      assert (Zpos M1 * 2 ^ 54 <= Zpos M1 * P) by (apply Z.mul_le_mono_nonneg_l; lia).
      assert (Zpos M2 * 2 ^ 54 <= Zpos M1 * 2 ^ 54) by (apply Z.mul_le_mono_nonneg_r; lia).
      assert ((10808639105689191 * Zpos M2 <=? Zpos M1 * P) = true) as ->
          by (apply Z.leb_le; lia).
      destruct (q1 <? 2 ^ 53); rewrite ltb_rate.
      * assert ((-54 <? k - 53 + 1) = true) as -> by (apply Z.ltb_lt; lia). reflexivity.
      * assert ((-54 <? k - 53 + 1 + 1) = true) as -> by (apply Z.ltb_lt; lia). reflexivity.
Qed.

Lemma normalized_bounds (p M : positive) (d : Z) :
  d = Zpos (digits2_pos p) -> Zpos p < 2 ^ 53 ->
  Zpos M = Zpos p * 2 ^ (53 - d) -> Zpos (digits2_pos M) = 53 ->
  1 <= d <= 53 /\ 2 ^ 52 <= Zpos M < 2 ^ 53.
Proof.
  intros -> Hp HM HdM. pose proof (digits_bounds p) as [Hlo Hhi].
  pose proof (digits_bounds M) as HbM. rewrite HdM in HbM.
  change (2 ^ (53 - 1)) with (2 ^ 52) in HbM.
  split; [|exact HbM]. split; [lia|].
  assert (Zpos (digits2_pos p) - 1 < 53); [|lia].
  apply (Z.pow_lt_mono_r_iff 2); lia.
Qed.

Lemma overRate_fraction (n m : nat) :
  0 < Z.of_nat m <= 2 ^ 52 -> Z.of_nat n < 2 ^ 53 ->
  overRate n m = (3 * Z.of_nat m <? 10 * Z.of_nat n).
Proof.
  intros Hm Hn. unfold overRate, gt, div, number.
  destruct (Z.of_nat m) as [|pm|pm] eqn:Hpm; try lia.
  destruct (normalize_pos pm) as (M2 & -> & HM2 & Hd2); [lia|].
  destruct (normalized_bounds pm M2 _ eq_refl ltac:(lia) HM2 Hd2) as [Hdm HM2b].
  destruct (Z.of_nat n) as [|pn|pn] eqn:Hpn; try lia.
  { symmetry. apply Z.ltb_ge. lia. }
  destruct (normalize_pos pn Hn) as (M1 & -> & HM1 & Hd1).
  destruct (normalized_bounds pn M1 _ eq_refl Hn HM1 Hd1) as [Hdn HM1b].
  rewrite div_gt_rate by lia.
  set (dn := Zpos (digits2_pos pn)) in *. set (dm := Zpos (digits2_pos pm)) in *.
  rewrite HM1, HM2.
  replace (dn - 53 - (dm - 53) + 55) with ((53 - dm) + 55 - (53 - dn)) by lia.
  set (a := 53 - dn) in *. set (b := 53 - dm) in *.
  assert (2 ^ a * 2 ^ (b + 55 - a) = 2 ^ b * 2 ^ 55) as Hpow.
  { rewrite <- !Z.pow_add_r by lia. f_equal. lia. }
  assert (0 < 2 ^ b) as Hb by (apply Z.pow_pos_nonneg; lia).
  apply bool_eq_iff. rewrite Z.leb_le, Z.ltb_lt.
  replace (Zpos pn * 2 ^ a * 2 ^ (b + 55 - a)) with (Zpos pn * 2 ^ 55 * 2 ^ b)
    by (rewrite <- !Z.mul_assoc, Hpow; lia).
  replace (10808639105689191 * (Zpos pm * 2 ^ b))
    with (10808639105689191 * Zpos pm * 2 ^ b) by lia.
  rewrite <- Z.mul_le_mono_pos_r by exact Hb.
  lia.
Qed.

End DoubleFacts.

(** ** More on the edit distance and the rate *)

Section LevenMore.

Lemma distance_sym (a b : string) : distance a b = distance b a.
Proof.
  revert b. induction a as [|x a IHa]; intros b.
  - by rewrite distance_empty_l, distance_empty_r.
  - induction b as [|y b IHb].
    + by rewrite distance_empty_l, distance_empty_r.
    + rewrite !distance_cons, IHb, (IHa b), (IHa (String y b)), (Ascii.eqb_sym x y). lia.
Qed.

Lemma longer_sym (a b : string) : longer a b = longer b a.
Proof. unfold longer. lia. Qed.

Lemma longer_pos (a b : string) : 1 ≤ longer a b.
Proof. unfold longer. destruct (String.length a), (String.length b); cbn [orOne]; lia. Qed.

End LevenMore.

Section RateFacts.

(** A distance of zero is never over the rate, whatever the divisor. *)
Lemma overRate_zero (m : nat) : overRate 0 m = false.
Proof.
  unfold overRate, gt, div. change (number 0) with (S754_zero false).
  by destruct (number m) as [[]|[]| |[] ? ?].
Qed.

Lemma passesRate_sym (element el : Record) (field : string) :
  passesRate element el field = passesRate el element field.
Proof.
  unfold passesRate.
  destruct (element !! field) as [a|], (el !! field) as [b|]; try done.
  by rewrite distance_sym, longer_sym.
Qed.

Lemma passesFirst_sym (element el : Record) (fields : list string) :
  passesFirst element fields el = passesFirst el fields element.
Proof. destruct fields as [|f rest]; [done|]. apply passesRate_sym. Qed.

Lemma passesRate_same (element el : Record) (field v : string) :
  element !! field = Some v → el !! field = Some v → passesRate element el field = true.
Proof.
  intros Ha Hb. unfold passesRate. by rewrite Ha, Hb, distance_same, overRate_zero.
Qed.

End RateFacts.

Section SearchInvariant.

Implicit Types (element el best : Record) (fields : list string) (st : Search).

Lemma cacheOk_fresh element el field :
  cacheOk element (mkSearch (Some el) {[ field := fieldDistance element el field ]}).
Proof.
  intros best f v [= <-] Hv. cbn in Hv.
  apply lookup_singleton_Some in Hv as [<- <-]. done.
Qed.

Lemma cacheOk_unset element (cl : gmap string nat) : cacheOk element (mkSearch None cl).
Proof. by intros best f v ?. Qed.

(** What one run of the field loop can do to the state. *)
Lemma fieldLoop_inv element el fields st st' :
  cacheOk element st → fieldLoop element el fields st = Return st' →
  cacheOk element st' ∧ (st' = st ∨ smallest st' = Some el).
Proof.
  intros Hc. induction fields as [|field fields IH]; cbn [fieldLoop].
  - intros [= <-]. by split; [|left].
  - destruct (element !! field) as [a|] eqn:Ha; [|by destruct (el !! field)].
    destruct (el !! field) as [b|] eqn:Hb; [|done].
    change (leven (Some a) (Some b)) with (Return (distance a b)).
    cbn [lengthOf mbind completion_bind].
    assert (distance a b = fieldDistance element el field) as Hd
        by (unfold fieldDistance; by rewrite Ha, Hb).
    destruct (overRate _ _); [intros [= <-]; by split; [|left]|].
    destruct (smallest st) as [best|] eqn:Hs.
    2:{ intros [= <-]. split; [|by right]. rewrite Hd. apply cacheOk_fresh. }
    destruct (orElse (computedLeven st !! field) (leven (Some a) (best !! field)))
      as [curr|]; [|by cbn].
    cbn [mbind completion_bind].
    destruct (curr <? distance a b); [intros [= <-]; by split; [|left]|].
    destruct (distance a b <? curr); [|exact IH].
    intros [= <-]. split; [|by right]. rewrite Hd. apply cacheOk_fresh.
Qed.

(** The distance the loop compares with is the best candidate's own. *)
Lemma currLeven_spec element best field st (a : string) curr :
  cacheOk element st → smallest st = Some best → element !! field = Some a →
  orElse (computedLeven st !! field) (leven (Some a) (best !! field)) = Return curr →
  curr = fieldDistance element best field.
Proof.
  intros Hc Hs Ha. unfold fieldDistance. rewrite Ha.
  destruct (computedLeven st !! field) as [[|n]|] eqn:Hcl; cbn [orElse].
  - destruct (best !! field) as [c|]; [by intros [= <-] | done].
  - intros [= <-]. specialize (Hc best field (S n) Hs Hcl).
    unfold fieldDistance in Hc. by rewrite Ha in Hc.
  - destruct (best !! field) as [c|]; [by intros [= <-] | done].
Qed.

(** The first compared field decides between the candidate and the best
    so far. *)
Lemma fieldLoop_first element el field fields st st' :
  cacheOk element st → fieldLoop element el (field :: fields) st = Return st' →
  is_Some (element !! field) ∧ is_Some (el !! field) ∧
  match smallest st with
  | None => if passesRate element el field then smallest st' = Some el else st' = st
  | Some best =>
      (st' = st ∧
       (passesRate element el field = true →
        fieldDistance element best field ≤ fieldDistance element el field)) ∨
      (smallest st' = Some el ∧ passesRate element el field = true ∧
       fieldDistance element el field ≤ fieldDistance element best field)
  end.
Proof.
  intros Hc. cbn [fieldLoop]. unfold passesRate.
  destruct (element !! field) as [a|] eqn:Ha; [|by destruct (el !! field)].
  destruct (el !! field) as [b|] eqn:Hb; [|done].
  change (leven (Some a) (Some b)) with (Return (distance a b)).
  cbn [lengthOf mbind completion_bind]. fold (longer a b).
  assert (distance a b = fieldDistance element el field) as Hd
      by (unfold fieldDistance; by rewrite Ha, Hb).
  intros Hrun. split; [by eexists|]. split; [by eexists|].
  destruct (smallest st) as [best|] eqn:Hs.
  2:{ destruct (overRate _ _); cbn [negb]; by injection Hrun as <-. }
  destruct (overRate _ _); cbn [negb].
  { injection Hrun as <-. by left. }
  destruct (orElse (computedLeven st !! field) (leven (Some a) (best !! field)))
    as [curr|] eqn:Hcurr; [|by cbn in Hrun].
  apply (currLeven_spec element best field st a curr Hc Hs Ha) in Hcurr. subst curr.
  cbn [mbind completion_bind] in Hrun. rewrite <- Hd.
  destruct (Nat.ltb_spec (fieldDistance element best field) (distance a b)).
  { injection Hrun as <-. left. split; [done | lia]. }
  destruct (Nat.ltb_spec (distance a b) (fieldDistance element best field)).
  { injection Hrun as <-. right. split; [done|]. split; [done | lia]. }
  apply (fieldLoop_inv element el fields st st' Hc) in Hrun as [_ [->|Hrepl]].
  - left. split; [done | lia].
  - right. split; [done|]. split; [done | lia].
Qed.

Lemma searchInv_start element fields : searchInv element fields [] (mkSearch None ∅).
Proof. split; [apply cacheOk_unset|]. by intros x ?%elem_of_nil. Qed.

Lemma fieldLoop_searchInv element el fields (seen : list Record) st st' :
  searchInv element fields seen st → fieldLoop element el fields st = Return st' →
  searchInv element fields (seen ++ [el]) st'.
Proof.
  intros [Hc Hinv] Hrun.
  pose proof (fieldLoop_inv element el fields st st' Hc Hrun) as [Hc' _].
  split; [exact Hc'|].
  destruct fields as [|field fields].
  { cbn in Hrun. injection Hrun as <-.
    destruct (smallest st) as [best|]; [by destruct Hinv as (_ & ? & _) | done]. }
  pose proof (fieldLoop_first element el field fields st st' Hc Hrun) as (_ & _ & Hfirst).
  cbn [passesFirst firstDistance] in *.
  destruct (smallest st) as [best|] eqn:Hs.
  - destruct Hinv as (Hin & Hpass & Hmin).
    destruct Hfirst as [[-> Hkeep]|(Hrepl & Hpel & Hle)].
    + rewrite Hs. split; [apply elem_of_app; by left|]. split; [done|].
      intros x [Hx| ->%list_elem_of_singleton]%elem_of_app; [by apply Hmin | exact Hkeep].
    + rewrite Hrepl. split; [apply elem_of_app; right; by apply list_elem_of_singleton|].
      split; [done|].
      intros x [Hx| ->%list_elem_of_singleton]%elem_of_app Hpx; [|done].
      specialize (Hmin x Hx Hpx). lia.
  - destruct (passesRate element el field) eqn:Hpel.
    + rewrite Hfirst. split; [apply elem_of_app; right; by apply list_elem_of_singleton|].
      split; [done|].
      intros x [Hx| ->%list_elem_of_singleton]%elem_of_app Hpx; [|done].
      rewrite (Hinv x Hx) in Hpx. done.
    + subst st'. rewrite Hs.
      intros x [Hx| ->%list_elem_of_singleton]%elem_of_app; [by apply Hinv | done].
Qed.

Lemma candidateLoop_searchInv element fields (items seen : list Record) st st' :
  searchInv element fields seen st → candidateLoop element fields items st = Return st' →
  searchInv element fields (seen ++ items) st'.
Proof.
  revert seen st. induction items as [|el items IH]; intros seen st Hinv.
  - cbn. intros [= <-]. by rewrite app_nil_r.
  - cbn [candidateLoop].
    destruct (fieldLoop element el fields st) as [st1|] eqn:Hrun; [|done].
    cbn [mbind completion_bind]. intros Hrest.
    rewrite (cons_middle el seen items), app_assoc.
    apply (IH _ st1); [|done]. by apply (fieldLoop_searchInv element el fields seen st).
Qed.

(** A search that returns has read the first field of the record and of
    every candidate. *)
Lemma candidateLoop_reads element field fields (items : list Record) st st' :
  cacheOk element st → candidateLoop element (field :: fields) items st = Return st' →
  ∀ x, x ∈ items → is_Some (element !! field) ∧ is_Some (x !! field).
Proof.
  revert st. induction items as [|el items IH]; intros st Hc.
  - by intros _ x ?%elem_of_nil.
  - cbn [candidateLoop].
    destruct (fieldLoop element el (field :: fields) st) as [st1|] eqn:Hrun; [|done].
    cbn [mbind completion_bind]. intros Hrest x Hx.
    pose proof (fieldLoop_first element el field fields st st1 Hc Hrun) as (He & Hel & _).
    pose proof (fieldLoop_inv element el (field :: fields) st st1 Hc Hrun) as [Hc1 _].
    apply elem_of_cons in Hx as [->|Hx]; [done|].
    by apply (IH st1 Hc1 Hrest).
Qed.

Lemma findSmallestSimilar_inv element fields (items : list Record) r :
  findSmallestSimilar element fields items = Return r →
  match r with
  | None => ∀ x, x ∈ items → passesFirst element fields x = false
  | Some best =>
      best ∈ items ∧ passesFirst element fields best = true ∧
      ∀ x, x ∈ items → passesFirst element fields x = true →
           firstDistance element fields best ≤ firstDistance element fields x
  end.
Proof.
  unfold findSmallestSimilar.
  destruct (candidateLoop element fields items (mkSearch None ∅)) as [st'|] eqn:Hrun;
    [|done].
  cbn [mbind completion_bind]. intros [= <-].
  by destruct (candidateLoop_searchInv element fields items [] _ st'
                 (searchInv_start element fields) Hrun) as [_ ?].
Qed.

Lemma findSmallestSimilar_reads element field fields (items : list Record) r :
  findSmallestSimilar element (field :: fields) items = Return r →
  ∀ x, x ∈ items → is_Some (element !! field) ∧ is_Some (x !! field).
Proof.
  unfold findSmallestSimilar.
  destruct (candidateLoop element (field :: fields) items (mkSearch None ∅))
    as [st'|] eqn:Hrun; [|done].
  intros _. apply (candidateLoop_reads element field fields items (mkSearch None ∅) st');
    [apply cacheOk_unset | done].
Qed.

End SearchInvariant.

(** ** Selections and runs that return *)

Section FilterFacts.

Context {A : Type}.
Implicit Types (p : A → bool) (l : list A).

Lemma filter_elem_of p l x : x ∈ List.filter p l ↔ x ∈ l ∧ p x = true.
Proof. rewrite !list_elem_of_In. apply filter_In. Qed.

Lemma filter_sublist_of p l : List.filter p l `sublist_of` l.
Proof.
  induction l as [|x l IH]; cbn; [constructor|].
  destruct (p x); by constructor.
Qed.

Lemma filter_complement p q l :
  (∀ x, x ∈ l → q x = negb (p x)) → List.filter p l ++ List.filter q l ≡ₚ l.
Proof.
  induction l as [|x l IH]; intros Hq; [done|].
  cbn. rewrite (Hq x) by (by left).
  assert (List.filter p l ++ List.filter q l ≡ₚ l) as IH'
      by (apply IH; intros y Hy; apply Hq; by right).
  destruct (p x); cbn.
  - by rewrite IH'.
  - by rewrite <- Permutation_middle, IH'.
Qed.

Lemma filter_all p l : List.filter p l = l ↔ ∀ x, x ∈ l → p x = true.
Proof.
  split.
  - intros Heq x Hx. rewrite <- Heq in Hx. by apply filter_elem_of in Hx as [_ ?].
  - induction l as [|x l IH]; intros Hall; [done|].
    cbn. rewrite (Hall x) by (by left). f_equal. apply IH. intros y Hy. apply Hall. by right.
Qed.

Lemma filter_none p l : List.filter p l = [] ↔ ∀ x, x ∈ l → p x = false.
Proof.
  split.
  - intros Heq x Hx. destruct (p x) eqn:Hp; [|done].
    assert (x ∈ List.filter p l) as Hin by (by apply filter_elem_of).
    rewrite Heq in Hin. by apply elem_of_nil in Hin.
  - induction l as [|x l IH]; intros Hall; [done|].
    cbn. rewrite (Hall x) by (by left). apply IH. intros y Hy. apply Hall. by right.
Qed.

End FilterFacts.

Section PropFilterFacts.

Context {A : Type} (P : A → Prop) `{!∀ x, Decision (P x)}.

Lemma filter_all_of (l : list A) : (∀ x, x ∈ l → P x) → filter P l = l.
Proof.
  induction l as [|x l IH]; intros Hall; [done|].
  rewrite filter_cons_True by (apply Hall; by left).
  f_equal. apply IH. intros y Hy. apply Hall. by right.
Qed.

Lemma filter_none_of (l : list A) : (∀ x, x ∈ l → ¬ P x) → filter P l = [].
Proof.
  induction l as [|x l IH]; intros Hall; [done|].
  rewrite filter_cons_False by (apply Hall; by left).
  apply IH. intros y Hy. apply Hall. by right.
Qed.

End PropFilterFacts.

Section BruteforceMore.

Implicit Types (fields : list string) (status : Status).

Lemma found_of_result fields (items : list Record) (a : Record) r :
  findSmallestSimilar a fields items = Return r →
  foundSimilar fields items a = (if r is Some _ then true else false) ∧
  foundNone fields items a = (if r is Some _ then false else true).
Proof. intros Hr. unfold foundSimilar, foundNone. rewrite Hr. by destruct r. Qed.

(** What a search that returns found, in terms of the first field. *)
Lemma foundSimilar_iff fields (items : list Record) (a : Record) r :
  findSmallestSimilar a fields items = Return r →
  (foundSimilar fields items a = true ↔ ∃ b, b ∈ items ∧ passesFirst a fields b = true) ∧
  (foundNone fields items a = true ↔ ∀ b, b ∈ items → passesFirst a fields b = false) ∧
  foundNone fields items a = negb (foundSimilar fields items a).
Proof.
  intros Hr. destruct (found_of_result fields items a r Hr) as [-> ->].
  pose proof (findSmallestSimilar_inv a fields items r Hr) as Hinv.
  destruct r as [best|].
  - destruct Hinv as (Hin & Hpass & _). split; [|split; [|done]].
    + split; [intros _; by exists best | done].
    + split; [done|]. intros Hall. rewrite (Hall best Hin) in Hpass. done.
  - split; [|split; [|done]].
    + split; [done|]. intros (b & Hb & Hpass). by rewrite (Hinv b Hb) in Hpass.
    + done.
Qed.

Lemma originPass_returns fields (destBib items : list Record) status status' :
  forOf (originStep fields destBib) items status = Return status' →
  Forall (λ a, ∃ r, findSmallestSimilar a fields destBib = Return r) items.
Proof.
  revert status. induction items as [|a items IH]; intros status; [by constructor|].
  cbn [forOf].
  destruct (findSmallestSimilar a fields destBib) as [r|] eqn:Hr.
  - rewrite (proj1 (originStep_found fields destBib a status r Hr)).
    cbn [mbind completion_bind]. intros Hrest.
    constructor; [by eexists | by eapply IH].
  - assert (originStep fields destBib a status = TypeError) as ->
        by (unfold originStep; by rewrite Hr).
    by cbn.
Qed.

Lemma destinyPass_returns fields (origBib items : list Record) status status' :
  forOf (destinyStep fields origBib) items status = Return status' →
  Forall (λ b, ∃ r, findSmallestSimilar b fields origBib = Return r) items.
Proof.
  revert status. induction items as [|b items IH]; intros status; [by constructor|].
  cbn [forOf].
  destruct (findSmallestSimilar b fields origBib) as [r|] eqn:Hr.
  - rewrite (destinyStep_found fields origBib b status r Hr).
    cbn [mbind completion_bind]. intros Hrest.
    constructor; [by eexists | by eapply IH].
  - assert (destinyStep fields origBib b status = TypeError) as ->
        by (unfold destinyStep; by rewrite Hr).
    by cbn.
Qed.

(** A run that returns: every search returned, and the buckets are the
    three selections. *)
Lemma bruteforceStrategy_returned fields (origBib destBib : list Record) r :
  bruteforceStrategy fields origBib destBib = Return r →
  Forall (λ a, ∃ r, findSmallestSimilar a fields destBib = Return r) origBib ∧
  Forall (λ b, ∃ r, findSmallestSimilar b fields origBib = Return r) destBib ∧
  r = mkStatus (List.filter (foundSimilar fields destBib) origBib)
               (List.filter (foundNone fields destBib) origBib)
               (List.filter (foundNone fields origBib) destBib).
Proof.
  unfold bruteforceStrategy.
  destruct (forOf (originStep fields destBib) origBib emptyStatus) as [mid|] eqn:Hmid;
    [|by cbn].
  cbn [mbind completion_bind]. intros Hrun.
  pose proof (originPass_returns _ _ _ _ _ Hmid) as HA.
  pose proof (destinyPass_returns _ _ _ _ _ Hrun) as HB.
  split; [done|]. split; [done|].
  rewrite (originPass _ _ _ _ HA) in Hmid. injection Hmid as <-.
  rewrite (destinyPass _ _ _ _ HB) in Hrun. by injection Hrun as <-.
Qed.

Lemma bruteforceStrategy_of_searches fields (origBib destBib : list Record) :
  Forall (λ a, ∃ r, findSmallestSimilar a fields destBib = Return r) origBib →
  Forall (λ b, ∃ r, findSmallestSimilar b fields origBib = Return r) destBib →
  bruteforceStrategy fields origBib destBib =
  Return (mkStatus (List.filter (foundSimilar fields destBib) origBib)
                   (List.filter (foundNone fields destBib) origBib)
                   (List.filter (foundNone fields origBib) destBib)).
Proof.
  intros HA HB. unfold bruteforceStrategy.
  rewrite (originPass _ _ _ _ HA). cbn [mbind completion_bind].
  by rewrite (destinyPass _ _ _ _ HB).
Qed.

End BruteforceMore.

(** ** Statements about the two strategies *)

(** On values shorter than 2^52 characters the comparison of doubles
    [newLeven / max > 0.3] is the comparison of the exact fraction. *)
Lemma overRate_longer (a b : string) :
  short a → short b →
  overRate (distance a b) (longer a b) = (3 * longer a b <? 10 * distance a b).
Proof.
  intros Hsa Hsb. pose proof (distance_le_max a b) as Hd.
  assert (0 < Z.of_nat (longer a b) ≤ 2 ^ 52)%Z as Hm.
  { unfold short, longer in *.
    destruct (String.length a), (String.length b); cbn [orOne] in *; lia. }
  assert (Z.of_nat (distance a b) < 2 ^ 53)%Z as Hn by (unfold short in *; lia).
  rewrite (overRate_fraction _ _ Hm Hn).
  destruct (Z.ltb_spec (3 * Z.of_nat (longer a b)) (10 * Z.of_nat (distance a b)));
    symmetry; [apply Nat.ltb_lt | apply Nat.ltb_ge]; lia.
Qed.

(** C1, as the code has it.  With one compared field, present on both
    sides, and one candidate, the candidate is returned when its normalized
    distance is at most 0.3, the boundary included, and not returned when
    it is greater.  The values are shorter than 2^52 characters, as every
    string the runtime can hold is; on those the quotient of doubles
    decides as the fraction does. *)
Theorem threshold_inclusive (element el : Record) (field a b : string) :
  element !! field = Some a → el !! field = Some b → short a → short b →
  (10 * distance a b ≤ 3 * longer a b →
   findSmallestSimilar element [field] [el] = Return (Some el)) ∧
  (3 * longer a b < 10 * distance a b →
   findSmallestSimilar element [field] [el] = Return None).
Proof.
  intros Ha Hb Hsa Hsb.
  unfold findSmallestSimilar. cbn [candidateLoop].
  rewrite (fieldLoop_unset _ _ _ _ _ a b Ha Hb), (overRate_longer a b Hsa Hsb).
  split; intros H.
  - apply Nat.ltb_ge in H. by rewrite H.
  - apply Nat.ltb_lt in H. by rewrite H.
Qed.

Lemma threshold_inclusive_witness :
  (10 * distance "Algorithms" "Algorit" ≤ 3 * longer "Algorithms" "Algorit" →
   findSmallestSimilar algorithms ["TITLE"] [algorit] = Return (Some algorit)) ∧
  (3 * longer "Algorithms" "Algorit" < 10 * distance "Algorithms" "Algorit" →
   findSmallestSimilar algorithms ["TITLE"] [algorit] = Return None).
Proof.
  apply (threshold_inclusive algorithms algorit "TITLE" "Algorithms" "Algorit").
  - reflexivity.
  - reflexivity.
  - vm_compute. reflexivity.
  - vm_compute. reflexivity.
Defined.

(** C7.  Whenever [findSmallestSimilar] returns, it returns [undefined]
    exactly when no candidate passed the threshold check on the first
    compared field, and otherwise the record it returns is the best so
    far: one of the candidates, which passed that check and is as near to
    the searched record on the first field as any candidate that passed
    it.  On records that hold every compared field the search does
    return.  Where the code departs from the claim: when the searched
    record or any one candidate lacks the first compared field, the search
    returns neither [undefined] nor a candidate; it raises a
    [TypeError]. *)
Theorem findSmallestSimilar_spec (element : Record) (fields : list string)
        (items : list Record) :
  (∀ r, findSmallestSimilar element fields items = Return r →
        (r = None ↔ ∀ el, el ∈ items → passesFirst element fields el = false) ∧
        (∀ s, r = Some s →
              s ∈ items ∧ passesFirst element fields s = true ∧
              ∀ x, x ∈ items → passesFirst element fields x = true →
                   firstDistance element fields s ≤ firstDistance element fields x)) ∧
  (present fields element → Forall (present fields) items →
   ∃ r, findSmallestSimilar element fields items = Return r) ∧
  (∀ field rest x,
      fields = field :: rest → x ∈ items →
      element !! field = None ∨ x !! field = None →
      findSmallestSimilar element fields items = TypeError).
Proof.
  split; [|split].
  - intros r Hr. pose proof (findSmallestSimilar_inv element fields items r Hr) as Hinv.
    split.
    + destruct r as [best|]; [|done].
      split; [done|]. intros Hall. destruct Hinv as (Hin & Hpass & _).
      rewrite (Hall best Hin) in Hpass. discriminate.
    + intros s ->. exact Hinv.
  - apply findSmallestSimilar_returns.
  - intros field rest x -> Hx Hnone.
    destruct (findSmallestSimilar element (field :: rest) items) as [r|] eqn:Hr; [|done].
    destruct (findSmallestSimilar_reads element field rest items r Hr x Hx)
      as [[a Ha] [b Hb]].
    destruct Hnone; congruence.
Qed.

(** C7 at a search that returns a candidate, and at one that raises:
    "Neural Nets" finds "Neural Networks" among two candidates; a record
    without a title, searched by title, passes no check and yet does not
    come back as unmatched. *)
Lemma findSmallestSimilar_spec_witness :
  ((Some netsB = None
    ↔ ∀ el, el ∈ [deepA; netsB] → passesFirst netsA ["TITLE"] el = false) ∧
   (∀ s, Some netsB = Some s →
         s ∈ [deepA; netsB] ∧ passesFirst netsA ["TITLE"] s = true ∧
         ∀ x, x ∈ [deepA; netsB] → passesFirst netsA ["TITLE"] x = true →
              firstDistance netsA ["TITLE"] s ≤ firstDistance netsA ["TITLE"] x)) ∧
  (∀ el, el ∈ [deepA] → passesFirst untitled ["TITLE"] el = false) ∧
  findSmallestSimilar untitled ["TITLE"] [deepA] = TypeError.
Proof.
  split; [|split].
  - apply (proj1 (findSmallestSimilar_spec netsA ["TITLE"] [deepA; netsB]) (Some netsB)).
    vm_compute. reflexivity.
  - intros el ->%list_elem_of_singleton. reflexivity.
  - apply (proj2 (proj2 (findSmallestSimilar_spec untitled ["TITLE"] [deepA]))
             "TITLE" [] deepA).
    + reflexivity.
    + by apply list_elem_of_singleton.
    + left. reflexivity.
Defined.

(** X1.  For field values shorter than 2^52 characters, a candidate gets
    past the threshold check on a field exactly when ten times the edit
    distance is at most three times the longer length: the comparison of
    doubles [newLeven / max > 0.3] decides as the exact fraction does. *)
Theorem passesRate_fraction (element el : Record) (field a b : string) :
  element !! field = Some a → el !! field = Some b → short a → short b →
  passesRate element el field = true ↔ 10 * distance a b ≤ 3 * longer a b.
Proof.
  intros Ha Hb Hsa Hsb. unfold passesRate. rewrite Ha, Hb.
  pose proof (distance_le_max a b) as Hd.
  assert (0 < Z.of_nat (longer a b) ≤ 2 ^ 52)%Z as Hm.
  { unfold short, longer in *.
    destruct (String.length a), (String.length b); cbn [orOne] in *; lia. }
  assert (Z.of_nat (distance a b) < 2 ^ 53)%Z as Hn by (unfold short in *; lia).
  rewrite (overRate_fraction _ _ Hm Hn).
  destruct (Z.ltb_spec (3 * Z.of_nat (longer a b)) (10 * Z.of_nat (distance a b)));
    cbn [negb]; split; intros; first [done | lia].
Qed.

Lemma passesRate_fraction_witness :
  passesRate algorithms algorit "TITLE" = true
  ↔ 10 * distance "Algorithms" "Algorit" ≤ 3 * longer "Algorithms" "Algorit".
Proof.
  apply (passesRate_fraction algorithms algorit "TITLE" "Algorithms" "Algorit").
  - reflexivity.
  - reflexivity.
  - vm_compute. reflexivity.
  - vm_compute. reflexivity.
Defined.

(** X2.  A record that [findSmallestSimilar] returns is one of the
    candidates, it passed the threshold check on the first compared field,
    and on that field no candidate that passed the check is nearer to the
    searched record. *)
Theorem findSmallestSimilar_nearest (element : Record) (fields : list string)
        (items : list Record) (best : Record) :
  findSmallestSimilar element fields items = Return (Some best) →
  best ∈ items ∧ passesFirst element fields best = true ∧
  ∀ x, x ∈ items → passesFirst element fields x = true →
       firstDistance element fields best ≤ firstDistance element fields x.
Proof. intros Hr. exact (findSmallestSimilar_inv element fields items (Some best) Hr). Qed.

Lemma findSmallestSimilar_nearest_witness :
  netsB ∈ [deepA; netsA; netsB] ∧ passesFirst netsB ["TITLE"] netsB = true ∧
  ∀ x, x ∈ [deepA; netsA; netsB] → passesFirst netsB ["TITLE"] x = true →
       firstDistance netsB ["TITLE"] netsB ≤ firstDistance netsB ["TITLE"] x.
Proof.
  apply (findSmallestSimilar_nearest netsB ["TITLE"] [deepA; netsA; netsB] netsB).
  vm_compute. reflexivity.
Defined.

(** X3.  When the bruteforce strategy returns, every record of
    [origBib] went to exactly one of [AB] and [OnlyA]: the two buckets
    together are a rearrangement of [origBib], each keeps the order of
    [origBib], and [OnlyB] is a selection of [destBib] in its order. *)
Theorem bruteforceStrategy_partition (fields : list string) (origBib destBib : list Record)
        (r : Status) :
  bruteforceStrategy fields origBib destBib = Return r →
  AB r ++ OnlyA r ≡ₚ origBib ∧
  length (AB r) + length (OnlyA r) = length origBib ∧
  AB r `sublist_of` origBib ∧ OnlyA r `sublist_of` origBib ∧
  OnlyB r `sublist_of` destBib.
Proof.
  intros (HA & HB & ->)%bruteforceStrategy_returned. cbn [AB OnlyA OnlyB].
  assert (List.filter (foundSimilar fields destBib) origBib
          ++ List.filter (foundNone fields destBib) origBib ≡ₚ origBib) as Hperm.
  { apply filter_complement. intros a Ha.
    destruct (proj1 (Forall_forall _ _) HA a Ha) as [ra Hra].
    by destruct (foundSimilar_iff fields destBib a ra Hra) as (_ & _ & ?). }
  split; [done|]. split; [by rewrite <- length_app, Hperm|].
  repeat split; apply filter_sublist_of.
Qed.

Lemma bruteforceStrategy_partition_witness :
  AB (mkStatus [netsA] [deepA] []) ++ OnlyA (mkStatus [netsA] [deepA] []) ≡ₚ [netsA; deepA] ∧
  length (AB (mkStatus [netsA] [deepA] [])) + length (OnlyA (mkStatus [netsA] [deepA] []))
  = length [netsA; deepA] ∧
  AB (mkStatus [netsA] [deepA] []) `sublist_of` [netsA; deepA] ∧
  OnlyA (mkStatus [netsA] [deepA] []) `sublist_of` [netsA; deepA] ∧
  OnlyB (mkStatus [netsA] [deepA] []) `sublist_of` [netsB].
Proof.
  apply (bruteforceStrategy_partition ["TITLE"] [netsA; deepA] [netsB]).
  vm_compute. reflexivity.
Defined.

(** X4.  When the bruteforce strategy returns, membership in its buckets
    is decided by the threshold check on the first compared field alone,
    and by the same relation on both sides: a record of [origBib] is in
    [AB] when some record of [destBib] passes the check against it and in
    [OnlyA] when none does, and a record of [destBib] is in [OnlyB] when no
    record of [origBib] passes the check against it.  Hence [AB] is empty
    exactly when [OnlyB] is the whole of [destBib]. *)
Theorem bruteforceStrategy_membership (fields : list string) (origBib destBib : list Record)
        (r : Status) :
  bruteforceStrategy fields origBib destBib = Return r →
  (∀ a, a ∈ AB r ↔ a ∈ origBib ∧ ∃ b, b ∈ destBib ∧ passesFirst a fields b = true) ∧
  (∀ a, a ∈ OnlyA r ↔ a ∈ origBib ∧ ∀ b, b ∈ destBib → passesFirst a fields b = false) ∧
  (∀ b, b ∈ OnlyB r ↔ b ∈ destBib ∧ ∀ a, a ∈ origBib → passesFirst a fields b = false) ∧
  (AB r = [] ↔ OnlyB r = destBib).
Proof.
  intros (HA & HB & ->)%bruteforceStrategy_returned. cbn [AB OnlyA OnlyB].
  rewrite Forall_forall in HA, HB.
  assert (∀ a, a ∈ origBib →
               (foundSimilar fields destBib a = true
                ↔ ∃ b, b ∈ destBib ∧ passesFirst a fields b = true) ∧
               (foundNone fields destBib a = true
                ↔ ∀ b, b ∈ destBib → passesFirst a fields b = false) ∧
               foundNone fields destBib a = negb (foundSimilar fields destBib a)) as HfA.
  { intros a Ha. destruct (HA a Ha) as [ra Hra]. by apply (foundSimilar_iff _ _ _ ra). }
  assert (∀ b, b ∈ destBib →
               (foundNone fields origBib b = true
                ↔ ∀ a, a ∈ origBib → passesFirst a fields b = false)) as HfB.
  { intros b Hb. destruct (HB b Hb) as [rb Hrb].
    destruct (foundSimilar_iff _ _ _ rb Hrb) as (_ & -> & _).
    split; intros Hall a Ha; [rewrite passesFirst_sym | rewrite <- passesFirst_sym];
      by apply Hall. }
  split; [|split; [|split]].
  - intros a. rewrite filter_elem_of. split.
    + intros [Ha Hf]. split; [done|]. by apply (HfA a Ha).
    + intros [Ha Hex]. split; [done|]. by apply (HfA a Ha).
  - intros a. rewrite filter_elem_of. split.
    + intros [Ha Hf]. split; [done|]. by apply (HfA a Ha).
    + intros [Ha Hall]. split; [done|]. by apply (HfA a Ha).
  - intros b. rewrite filter_elem_of. split.
    + intros [Hb Hf]. split; [done|]. by apply (HfB b Hb).
    + intros [Hb Hall]. split; [done|]. by apply (HfB b Hb).
  - rewrite filter_none, filter_all. split.
    + intros Hnone b Hb. apply (HfB b Hb). intros a Ha.
      destruct (passesFirst a fields b) eqn:Hp; [|done].
      assert (foundSimilar fields destBib a = true) as Hf
          by (apply (HfA a Ha); by exists b).
      by rewrite (Hnone a Ha) in Hf.
    + intros Hall a Ha. destruct (foundSimilar fields destBib a) eqn:Hf; [|done].
      apply (HfA a Ha) in Hf as (b & Hb & Hp).
      pose proof (proj1 (HfB b Hb) (Hall b Hb) a Ha) as Hq. by rewrite Hq in Hp.
Qed.

Lemma bruteforceStrategy_membership_witness :
  (∀ a, a ∈ AB (mkStatus [netsA] [deepA] [])
        ↔ a ∈ [netsA; deepA] ∧ ∃ b, b ∈ [netsB] ∧ passesFirst a ["TITLE"] b = true) ∧
  (∀ a, a ∈ OnlyA (mkStatus [netsA] [deepA] [])
        ↔ a ∈ [netsA; deepA] ∧ ∀ b, b ∈ [netsB] → passesFirst a ["TITLE"] b = false) ∧
  (∀ b, b ∈ OnlyB (mkStatus [netsA] [deepA] [])
        ↔ b ∈ [netsB] ∧ ∀ a, a ∈ [netsA; deepA] → passesFirst a ["TITLE"] b = false) ∧
  (AB (mkStatus [netsA] [deepA] []) = [] ↔ OnlyB (mkStatus [netsA] [deepA] []) = [netsB]).
Proof.
  apply (bruteforceStrategy_membership ["TITLE"] [netsA; deepA] [netsB]).
  vm_compute. reflexivity.
Defined.

(** X5.  The compared fields after the first never change the outcome:
    when the bruteforce strategy returns on a field list, it returns the
    same buckets on the first field alone. *)
Theorem bruteforceStrategy_first_field_only (field : string) (fields : list string)
        (origBib destBib : list Record) (r : Status) :
  bruteforceStrategy (field :: fields) origBib destBib = Return r →
  bruteforceStrategy [field] origBib destBib = Return r.
Proof.
  intros Hrun.
  destruct (bruteforceStrategy_returned _ _ _ _ Hrun) as (HA & HB & ->).
  rewrite Forall_forall in HA, HB.
  assert (∀ (items : list Record) (a : Record) ra,
             findSmallestSimilar a (field :: fields) items = Return ra →
             ∃ ra', findSmallestSimilar a [field] items = Return ra' ∧
                    foundSimilar [field] items a = foundSimilar (field :: fields) items a ∧
                    foundNone [field] items a = foundNone (field :: fields) items a) as Hone.
  { intros items a ra Hra.
    assert (∃ ra', findSmallestSimilar a [field] items = Return ra') as [ra' Hra'].
    { destruct items as [|b items]; [by exists None|].
      pose proof (findSmallestSimilar_reads a field fields (b :: items) ra Hra) as Hread.
      apply findSmallestSimilar_returns.
      - intros f ->%list_elem_of_singleton. apply (Hread b). by left.
      - apply Forall_forall. intros x Hx f ->%list_elem_of_singleton.
        by apply (Hread x). }
    exists ra'. split; [done|].
    destruct (foundSimilar_iff _ _ _ _ Hra) as (H1 & H2 & H3).
    destruct (foundSimilar_iff _ _ _ _ Hra') as (H1' & H2' & H3').
    assert (foundSimilar [field] items a = foundSimilar (field :: fields) items a) as Heq.
    { apply eq_true_iff_eq. rewrite H1, H1'. done. }
    split; [done|]. by rewrite H3, H3', Heq. }
  rewrite bruteforceStrategy_of_searches.
  - f_equal. f_equal.
    + apply filter_ext_in. intros a Ha%list_elem_of_In.
      destruct (HA a Ha) as [ra Hra]. by destruct (Hone _ _ _ Hra) as (_ & _ & ? & _).
    + apply filter_ext_in. intros a Ha%list_elem_of_In.
      destruct (HA a Ha) as [ra Hra]. by destruct (Hone _ _ _ Hra) as (_ & _ & _ & ?).
    + apply filter_ext_in. intros b Hb%list_elem_of_In.
      destruct (HB b Hb) as [rb Hrb]. by destruct (Hone _ _ _ Hrb) as (_ & _ & _ & ?).
  - apply Forall_forall. intros a Ha. destruct (HA a Ha) as [ra Hra].
    destruct (Hone _ _ _ Hra) as (ra' & ? & _). by exists ra'.
  - apply Forall_forall. intros b Hb. destruct (HB b Hb) as [rb Hrb].
    destruct (Hone _ _ _ Hrb) as (rb' & ? & _). by exists rb'.
Qed.

Lemma bruteforceStrategy_first_field_only_witness :
  bruteforceStrategy ["TITLE"] [netsA; deepA] [netsB] = Return (mkStatus [netsA] [deepA] []).
Proof.
  apply (bruteforceStrategy_first_field_only "TITLE" ["key"] [netsA; deepA] [netsB]).
  vm_compute. reflexivity.
Defined.

(** X6.  A collection whose records hold every compared field, compared
    with itself by the bruteforce strategy on at least one field, is common
    in full. *)
Theorem bruteforceStrategy_self (field : string) (fields : list string)
        (bib : list Record) :
  Forall (present (field :: fields)) bib →
  bruteforceStrategy (field :: fields) bib bib = Return (mkStatus bib [] []).
Proof.
  intros Hp.
  pose proof (searches_return (field :: fields) bib bib Hp Hp) as Hs.
  rewrite (bruteforceStrategy_of_searches _ _ _ Hs Hs).
  rewrite Forall_forall in Hs, Hp.
  assert (∀ a, a ∈ bib → foundSimilar (field :: fields) bib a = true
                         ∧ foundNone (field :: fields) bib a = false) as Hfound.
  { intros a Ha. destruct (Hs a Ha) as [ra Hra].
    destruct (foundSimilar_iff _ _ _ _ Hra) as (H1 & _ & H3).
    assert (foundSimilar (field :: fields) bib a = true) as Hf.
    { apply H1. exists a. split; [done|].
      destruct (Hp a Ha field) as [v Hv]; [by left|].
      by apply (passesRate_same a a field v). }
    by rewrite H3, Hf. }
  f_equal. f_equal.
  - apply filter_all. intros a Ha. by apply Hfound.
  - apply filter_none. intros a Ha. by apply Hfound.
  - apply filter_none. intros a Ha. by apply Hfound.
Qed.

Lemma bruteforceStrategy_self_witness :
  bruteforceStrategy ["TITLE"; "key"] [netsA; deepA; netsB] [netsA; deepA; netsB]
  = Return (mkStatus [netsA; deepA; netsB] [] []).
Proof.
  apply (bruteforceStrategy_self "TITLE" ["key"] [netsA; deepA; netsB]).
  repeat constructor; intros f Hf;
    (apply elem_of_cons in Hf as [->|Hf]; [|apply list_elem_of_singleton in Hf as ->]);
    vm_compute; eauto.
Defined.

Lemma bruteforceStrategy_raises (field : string) (fields : list string)
      (origBib destBib : list Record) (x : Record) :
  origBib ≠ [] → destBib ≠ [] → x ∈ origBib ∨ x ∈ destBib → x !! field = None →
  bruteforceStrategy (field :: fields) origBib destBib = TypeError.
Proof.
  intros HA HB Hx Hnone.
  destruct (bruteforceStrategy (field :: fields) origBib destBib) as [r|] eqn:Hrun; [|done].
  exfalso.
  destruct (bruteforceStrategy_returned _ _ _ _ Hrun) as (HsA & HsB & _).
  rewrite Forall_forall in HsA, HsB.
  destruct origBib as [|a0 origBib]; [done|]. destruct destBib as [|b0 destBib]; [done|].
  assert (is_Some (x !! field)) as [v Hv]; [|congruence].
  destruct Hx as [Hx|Hx].
  - destruct (HsA x Hx) as [rx Hrx].
    apply (findSmallestSimilar_reads x field fields (b0 :: destBib) rx Hrx b0). by left.
  - destruct (HsA a0) as [ra Hra]; [by left|].
    by apply (findSmallestSimilar_reads a0 field fields (b0 :: destBib) ra Hra x).
Qed.

(** X7.  With both collections non-empty, one record of either
    collection without the first compared field makes the bruteforce
    strategy raise a [TypeError], wherever the record stands. *)
Theorem bruteforceStrategy_needs_first_field (field : string) (fields : list string)
        (origBib destBib : list Record) (x : Record) :
  origBib ≠ [] → destBib ≠ [] → x ∈ origBib ∨ x ∈ destBib → x !! field = None →
  bruteforceStrategy (field :: fields) origBib destBib = TypeError.
Proof. exact (bruteforceStrategy_raises field fields origBib destBib x). Qed.

Lemma bruteforceStrategy_needs_first_field_witness :
  bruteforceStrategy ["TITLE"; "key"] [deepA; netsA] [netsB; untitled] = TypeError.
Proof.
  apply (bruteforceStrategy_needs_first_field "TITLE" ["key"] [deepA; netsA]
           [netsB; untitled] untitled).
  - discriminate.
  - discriminate.
  - right. apply elem_of_cons. right. by apply list_elem_of_singleton.
  - reflexivity.
Defined.

(** X8.  With an empty [destBib], the bruteforce strategy returns
    [origBib] itself as [OnlyA] without reading any field; the hash
    strategy returns as [OnlyA] the records its lookup table keeps of
    [origBib], which is [origBib] itself when no two of its records share a
    fingerprint. *)
Theorem empty_destiny (fields : list string) (origBib : list Record) :
  bruteforceStrategy fields origBib [] = Return (mkStatus [] origBib []) ∧
  hashStrategy fields origBib [] = mkStatus [] (buildLookupTable origBib fields).*2 [] ∧
  (NoDup (fingerprint fields <$> origBib) →
   hashStrategy fields origBib [] = mkStatus [] origBib []).
Proof.
  assert (hashStrategy fields origBib []
          = mkStatus [] (buildLookupTable origBib fields).*2 []) as Hhash.
  { rewrite hashStrategy_buckets. cbv zeta. cbn [buildLookupTable fold_left].
    rewrite filter_nil.
    rewrite (filter_none_of (keyIn [])), (filter_all_of (λ p, ¬ keyIn [] p)); [done|..].
    - intros p _ [? ?]. done.
    - intros p _ [? ?]. done. }
  split; [|split; [done|]].
  - rewrite bruteforceStrategy_of_searches.
    + cbn [List.filter]. f_equal. f_equal.
      * apply filter_none. done.
      * apply filter_all. done.
    + apply Forall_forall. intros a _. by exists None.
    + constructor.
  - intros Hnd. rewrite Hhash. f_equal.
    rewrite (buildLookupTable_NoDup_keys _ _ Hnd), <- list_fmap_compose.
    apply list_fmap_id.
Qed.

Lemma empty_destiny_witness :
  hashStrategy ["TITLE"] [deepA; graphB] [] = mkStatus [] [deepA; graphB] [].
Proof.
  apply (empty_destiny ["TITLE"] [deepA; graphB]).
  apply (bool_decide_unpack _). vm_compute. exact I.
Defined.

(** X9.  With no field to compare, the bruteforce strategy matches
    nothing: every record is only in its own collection. *)
Theorem bruteforceStrategy_no_fields (origBib destBib : list Record) :
  bruteforceStrategy [] origBib destBib = Return (mkStatus [] origBib destBib).
Proof.
  assert (∀ (items : list Record) (a : Record),
             findSmallestSimilar a [] items = Return None) as Hnone.
  { intros items a. unfold findSmallestSimilar.
    assert (∀ st, candidateLoop a [] items st = Return st) as ->; [|done].
    induction items as [|b items IH]; intros st; [done|]. cbn. apply IH. }
  rewrite bruteforceStrategy_of_searches.
  - f_equal. f_equal.
    + apply filter_none. intros a _. unfold foundSimilar. by rewrite Hnone.
    + apply filter_all. intros a _. unfold foundNone. by rewrite Hnone.
    + apply filter_all. intros a _. unfold foundNone. by rewrite Hnone.
  - apply Forall_forall. intros a _. by exists None.
  - apply Forall_forall. intros a _. by exists None.
Qed.

(** X10.  The hash strategy on a collection and itself reports nothing
    as only in one side: [AB] holds the records the lookup table keeps,
    which is the collection itself when no two records share a
    fingerprint. *)
Theorem hashStrategy_self (fields : list string) (bib : list Record) :
  hashStrategy fields bib bib = mkStatus (buildLookupTable bib fields).*2 [] [] ∧
  (NoDup (fingerprint fields <$> bib) → hashStrategy fields bib bib = mkStatus bib [] []).
Proof.
  assert (hashStrategy fields bib bib = mkStatus (buildLookupTable bib fields).*2 [] [])
    as Hself.
  { rewrite hashStrategy_buckets. cbv zeta.
    set (t := buildLookupTable bib fields).
    assert (∀ p, p ∈ t → keyIn t p) as Hin.
    { intros [k v] Hp. apply (tableGet_is_Some t k), list_elem_of_fmap. by exists (k, v). }
    rewrite (filter_all_of (keyIn t)), (filter_none_of (λ p, ¬ keyIn t p)); [done|..].
    - intros p Hp Hn. by apply Hn, Hin.
    - done. }
  split; [done|]. intros Hnd. rewrite Hself. f_equal.
  rewrite (buildLookupTable_NoDup_keys _ _ Hnd), <- list_fmap_compose.
  apply list_fmap_id.
Qed.

Lemma hashStrategy_self_witness :
  hashStrategy ["TITLE"] [deepA; graphB] [deepA; graphB] = mkStatus [deepA; graphB] [] [].
Proof.
  apply (hashStrategy_self ["TITLE"] [deepA; graphB]).
  apply (bool_decide_unpack _). vm_compute. exact I.
Defined.

Lemma tableSet_constant_key (k0 : string) (items : list Record) (el : Record) :
  fold_left (λ table x, tableSet table k0 x) (items ++ [el]) [] = [(k0, el)].
Proof.
  rewrite fold_left_app. cbn [fold_left].
  assert (fold_left (λ table x, tableSet table k0 x) items [] = []
          ∨ ∃ v, fold_left (λ table x, tableSet table k0 x) items [] = [(k0, v)]) as Hshape.
  { induction items as [|x items IH] using rev_ind; [by left|].
    right. rewrite fold_left_app. cbn [fold_left].
    destruct IH as [->|[v ->]]; cbn [tableSet]; [by exists x|].
    rewrite String.eqb_refl. by exists x. }
  destruct Hshape as [->|[v ->]]; cbn [tableSet]; [done|].
  by rewrite String.eqb_refl.
Qed.

Lemma buildLookupTable_no_fields (items : list Record) (el : Record) :
  buildLookupTable (items ++ [el]) [] = [(hash EmptyString, el)].
Proof. exact (tableSet_constant_key (hash EmptyString) items el). Qed.

(** X11.  With no field to compare all records share one fingerprint:
    the hash strategy on two non-empty collections reports the last record
    of [origBib] as the single common entry and nothing else. *)
Theorem hashStrategy_no_fields (origBib destBib : list Record) (a b : Record) :
  hashStrategy [] (origBib ++ [a]) (destBib ++ [b]) = mkStatus [a] [] [].
Proof.
  unfold hashStrategy. rewrite !buildLookupTable_no_fields.
  generalize (hash EmptyString). intros k0.
  cbn [fold_left tableGet]. by rewrite String.eqb_refl.
Qed.

(** X12.  A lookup table lists the distinct fingerprints of the
    collection in the order of their first occurrence, and gives for a
    fingerprint the last record that carries it. *)
Theorem buildLookupTable_order (items : list Record) (fields : list string) :
  (buildLookupTable items fields).*1
  = reverse (remove_dups (reverse (fingerprint fields <$> items))) ∧
  ∀ k v, tableGet (buildLookupTable items fields) k = Some v
         ↔ lastOfFingerprint fields items v ∧ fingerprint fields v = k.
Proof.
  split; [|intros k v; apply buildLookupTable_get].
  induction items as [|x items IH] using rev_ind; [done|].
  rewrite buildLookupTable_snoc, fmap_app, reverse_app. cbn [fmap list_fmap reverse].
  change (reverse [fingerprint fields x]) with [fingerprint fields x].
  cbn [app remove_dups].
  set (k := fingerprint fields x).
  change (getKey x fields) with k.
  destruct (decide_rel elem_of k (reverse (fingerprint fields <$> items))) as [Hin|Hnin].
  - rewrite tableSet_keys; [done|].
    apply buildLookupTable_keys. rewrite elem_of_reverse in Hin.
    apply list_elem_of_fmap in Hin as (el & Hk & Hel). by exists el.
  - rewrite tableSet_fresh, fmap_app, reverse_cons, IH; [done|].
    intros (el & Hel & Hk)%buildLookupTable_keys. apply Hnin.
    rewrite elem_of_reverse. apply list_elem_of_fmap. by exists el.
Qed.

(** X13.  The buckets of the hash strategy, record by record: [AB] holds
    the records kept from [origBib] whose fingerprint some record of
    [destBib] carries, [OnlyA] those whose fingerprint none carries, [OnlyB]
    the records kept from [destBib] whose fingerprint no record of
    [origBib] carries; [AB] and [OnlyB] together count the distinct
    fingerprints of [destBib]. *)
Theorem hashStrategy_membership (fields : list string) (origBib destBib : list Record) :
  let r := hashStrategy fields origBib destBib in
  (∀ x, x ∈ AB r ↔ lastOfFingerprint fields origBib x ∧
                   ∃ b, b ∈ destBib ∧ fingerprint fields b = fingerprint fields x) ∧
  (∀ x, x ∈ OnlyA r ↔ lastOfFingerprint fields origBib x ∧ noCounterpart fields destBib x) ∧
  (∀ x, x ∈ OnlyB r ↔ lastOfFingerprint fields destBib x ∧ noCounterpart fields origBib x) ∧
  length (AB r) + length (OnlyB r) = length (remove_dups (fingerprint fields <$> destBib)).
Proof.
  cbv zeta. rewrite hashStrategy_buckets. cbn [AB OnlyA OnlyB].
  set (listA := buildLookupTable origBib fields).
  set (listB := buildLookupTable destBib fields).
  assert (∀ (items other : list Record) x,
             x ∈ (filter (keyIn (buildLookupTable other fields))
                         (buildLookupTable items fields)).*2
             ↔ lastOfFingerprint fields items x ∧
               ∃ b, b ∈ other ∧ fingerprint fields b = fingerprint fields x) as Hin.
  { intros items other x. rewrite list_elem_of_fmap. split.
    - intros ([k v] & -> & [Hkey Hent]%list_elem_of_filter).
      apply buildLookupTable_entry in Hent as [Hlast <-]. split; [done|].
      by apply (tableGet_is_Some _ (getKey v fields)), buildLookupTable_keys in Hkey.
    - intros [Hlast Hex]. exists (getKey x fields, x). split; [done|].
      apply list_elem_of_filter. split; [|by apply buildLookupTable_entry].
      by apply (tableGet_is_Some _ (getKey x fields)), buildLookupTable_keys. }
  assert (∀ (items other : list Record) x,
             x ∈ (filter (λ p, ¬ keyIn (buildLookupTable other fields) p)
                         (buildLookupTable items fields)).*2
             ↔ lastOfFingerprint fields items x ∧ noCounterpart fields other x) as Hout.
  { intros items other x. rewrite list_elem_of_fmap. split.
    - intros ([k v] & -> & [Hkey Hent]%list_elem_of_filter).
      apply buildLookupTable_entry in Hent as [Hlast <-]. split; [done|].
      intros b Hb Heq. apply Hkey.
      apply (tableGet_is_Some _ (getKey v fields)), buildLookupTable_keys. by exists b.
    - intros [Hlast Hno]. exists (getKey x fields, x). split; [done|].
      apply list_elem_of_filter. split; [|by apply buildLookupTable_entry].
      intros (b & Hb & Heq)%(tableGet_is_Some _ (getKey x fields))%buildLookupTable_keys.
      by apply (Hno b Hb). }
  split; [apply Hin|]. split; [apply Hout|]. split; [apply Hout|].
  rewrite !length_fmap.
  rewrite (shared_keys_length listA listB) by apply buildLookupTable_NoDup.
  rewrite <- length_app, filter_app_complement, <- (length_fmap fst listB).
  apply Permutation_length, NoDup_Permutation.
  - apply buildLookupTable_NoDup.
  - apply NoDup_remove_dups.
  - intros k. unfold listB.
    rewrite elem_of_remove_dups, buildLookupTable_keys, list_elem_of_fmap.
    unfold fingerprint. split.
    + intros (el & Hel & <-). by exists el.
    + intros (el & -> & Hel). by exists el.
Qed.

(** ** Field names, options and the entry point *)

Section NormalizerMore.

Lemma upperChar_noLower (c : ascii) : isLower (upperChar c) = false.
Proof. destruct c as [[] [] [] [] [] [] [] []]; reflexivity. Qed.

Lemma upperChar_idem (c : ascii) : upperChar (upperChar c) = upperChar c.
Proof. destruct c as [[] [] [] [] [] [] [] []]; reflexivity. Qed.

Lemma toUpperCase_noLower (s : string) : noLower (toUpperCase s) = true.
Proof.
  unfold noLower. induction s as [|c s IH]; [done|].
  cbn. by rewrite upperChar_noLower, IH.
Qed.

Lemma toUpperCase_idem (s : string) : toUpperCase (toUpperCase s) = toUpperCase s.
Proof. induction s as [|c s IH]; [done|]. cbn. by rewrite upperChar_idem, IH. Qed.

Lemma toUpperCase_not_key (s : string) : toUpperCase s ≠ "key".
Proof.
  intros H. pose proof (toUpperCase_noLower s) as Hn. rewrite H in Hn. done.
Qed.

Lemma splitOn_nonempty (sep : ascii) (s : string) : splitOn sep s ≠ [].
Proof.
  destruct s as [|c s]; [done|]. cbn.
  destruct (Ascii.eqb c sep); [done|]. by destruct (splitOn sep s).
Qed.

Lemma splitOn_length (sep : ascii) (s : string) :
  length (splitOn sep s) = S (occurrences sep s).
Proof.
  induction s as [|c s IH]; [done|]. cbn.
  destruct (Ascii.eqb c sep); cbn; [by rewrite IH|].
  pose proof (splitOn_nonempty sep s).
  destruct (splitOn sep s); [done | exact IH].
Qed.

End NormalizerMore.

(** X14.  Normalizing field names twice is normalizing them once, and a
    normalized name is either ["key"] or has no lower-case letter: no other
    spelling is taken for the identifier field. *)
Theorem normalizeFields_idempotent (fields : list string) :
  normalizeFields (normalizeFields fields) = normalizeFields fields ∧
  ∀ name, name ∈ normalizeFields fields → name = "key" ∨ noLower name = true.
Proof.
  split.
  - induction fields as [|field fields IH]; [done|].
    cbn. f_equal; [|exact IH].
    destruct (String.eqb_spec field "key") as [->|Hne]; [done|].
    rewrite (proj2 (String.eqb_neq _ _) (toUpperCase_not_key field)).
    apply toUpperCase_idem.
  - intros name (field & <- & _)%list_elem_of_In%in_map_iff.
    destruct (String.eqb_spec field "key") as [->|Hne]; [by left|].
    right. apply toUpperCase_noLower.
Qed.

(** X15.  The field list [main] hands to a strategy is never empty: it
    has one name more than the option has commas. *)
Theorem fieldsOf_shape (field : string) :
  fieldsOf field ≠ [] ∧ length (fieldsOf field) = S (occurrences "," field).
Proof.
  unfold fieldsOf, normalizeFields. rewrite length_map, splitOn_length.
  split; [|done]. intros H%(f_equal length). rewrite length_map, splitOn_length in H. done.
Qed.

Section MainFacts.

Lemma Strategies_cases (name : string) :
  (name = "hash" ∧ Strategies name = Own (λ fields a b, Return (hashStrategy fields a b))) ∨
  (name = "bruteforce" ∧ Strategies name = Own bruteforceStrategy) ∨
  ((name ∉ strategyNames) ∧ name ∈ prototypeNames ∧ Strategies name = Inherited) ∨
  ((name ∉ strategyNames) ∧ (name ∉ prototypeNames) ∧ Strategies name = Undefined).
Proof.
  unfold Strategies.
  destruct (String.eqb_spec name "hash") as [->|Hh]; [by left|].
  destruct (String.eqb_spec name "bruteforce") as [->|Hb]; [right; by left|].
  assert (name ∉ strategyNames) as Hnot.
  { intros [->|[->|[]%elem_of_nil]%elem_of_cons]%elem_of_cons; done. }
  right. right. destruct (bool_decide_reflect (name ∈ prototypeNames)); [left|right]; done.
Qed.

End MainFacts.

(** X16.  [main] stops at [process.exit(-1)], having printed only the
    unknown-strategy message, for every strategy name that is neither a
    strategy nor a name [Object.prototype] answers to, whatever the other
    options and the files; and for no other name does it exit. *)
Theorem main_unknown_strategy (strategy field : string) (origin destiny : option string)
        (LoadBib : string → option (list Record)) :
  ((strategy ∉ strategyNames) ∧ (strategy ∉ prototypeNames)
   → main strategy field origin destiny LoadBib
     = mkRun ["Unknown strategy! Options are hash or bruteforce."] (Exited (-1))) ∧
  (∀ code, ending (main strategy field origin destiny LoadBib) = Exited code
           → (strategy ∉ strategyNames) ∧ (strategy ∉ prototypeNames)).
Proof.
  unfold main.
  destruct (Strategies_cases strategy)
    as [[-> ->]|[[-> ->]|[(Hs & Hp & ->)|(Hs & Hp & ->)]]].
  - split; [intros [Hn _]; destruct Hn; by left|].
    intros code. destruct origin as [[|? ?]|], destiny as [[|? ?]|]; try done.
    by destruct (_ ≫= _).
  - split; [intros [Hn _]; destruct Hn; right; by left|].
    intros code. destruct origin as [[|? ?]|], destiny as [[|? ?]|]; try done.
    by destruct (_ ≫= _).
  - split; [by intros [_ ?]|].
    intros code. by destruct origin as [[|? ?]|], destiny as [[|? ?]|].
  - split; [done|]. done.
Qed.

(** X17.  When a file fails to load, [main] prints the message for each
    file that failed and then ends with a [TypeError]: no report is
    printed, with either strategy. *)
Theorem main_load_failure (strategy field origin destiny : string)
        (LoadBib : string → option (list Record))
        (run : list string → list Record → list Record → completion Status) :
  Strategies strategy = Own run → origin ≠ EmptyString → destiny ≠ EmptyString →
  LoadBib origin = None ∨ LoadBib destiny = None →
  main strategy field (Some origin) (Some destiny) LoadBib
  = mkRun ((if LoadBib origin is None then ["origin file is not a valid bibtex file"] else [])
           ++ (if LoadBib destiny is None
               then ["destiny file is not a valid bibtex file"] else []))
          Rejected.
Proof.
  intros Hown Ho Hd Hfail. unfold main. rewrite Hown.
  destruct origin as [|c origin]; [done|]. destruct destiny as [|c' destiny]; [done|].
  destruct (LoadBib (String c origin)) as [a|], (LoadBib (String c' destiny)) as [b|];
    cbn [iterate mbind completion_bind]; try done.
  by destruct Hfail.
Qed.

(** X18.  With the bruteforce strategy and two non-empty files, one entry
    without the first compared field makes [main] end with a [TypeError]
    and print nothing. *)
Theorem main_bruteforce_missing_field (field origin destiny : string)
        (LoadBib : string → option (list Record)) (first : string) (rest : list string)
        (originBib destinyBib : list Record) (x : Record) :
  origin ≠ EmptyString → destiny ≠ EmptyString →
  LoadBib origin = Some originBib → LoadBib destiny = Some destinyBib →
  fieldsOf field = first :: rest →
  originBib ≠ [] → destinyBib ≠ [] → x ∈ originBib ∨ x ∈ destinyBib → x !! first = None →
  main "bruteforce" field (Some origin) (Some destiny) LoadBib = mkRun [] Rejected.
Proof.
  intros Ho Hd Hlo Hld Hfields HA HB Hx Hnone. unfold main.
  change (Strategies "bruteforce") with (Own bruteforceStrategy).
  destruct origin as [|c origin]; [done|]. destruct destiny as [|c' destiny]; [done|].
  rewrite Hlo, Hld.
  cbn [iterate mbind completion_bind].
  fold (fieldsOf field). rewrite Hfields.
  by rewrite (bruteforceStrategy_raises first rest originBib destinyBib x).
Qed.

Lemma main_load_failure_witness :
  main "hash" "key,title" (Some "a.bib") (Some "c.bib") sampleLoad
  = mkRun ["destiny file is not a valid bibtex file"] Rejected.
Proof.
  apply (main_load_failure "hash" "key,title" "a.bib" "c.bib" sampleLoad
           (λ fields a b, Return (hashStrategy fields a b))).
  - reflexivity.
  - discriminate.
  - discriminate.
  - right. reflexivity.
Defined.

Lemma main_bruteforce_missing_field_witness :
  main "bruteforce" "title,key" (Some "a.bib") (Some "b.bib") sampleLoad = mkRun [] Rejected.
Proof.
  apply (main_bruteforce_missing_field "title,key" "a.bib" "b.bib" sampleLoad
           "TITLE" ["key"] [deepA; untitled] [netsB] untitled).
  - discriminate.
  - discriminate.
  - reflexivity.
  - reflexivity.
  - reflexivity.
  - discriminate.
  - discriminate.
  - left. apply elem_of_cons. right. by apply list_elem_of_singleton.
  - reflexivity.
Defined.

(** A run that completes: the hash strategy on the two sample files. *)
Example main_hash_sample :
  main "hash" "title" (Some "a.bib") (Some "b.bib") sampleLoad
  = mkRun ["Origin entries: 2, Destiny entries: 1";
           "-------------------------------";
           "Common keys: 0";
           "-------------------------------";
           "Only in the origin file: 2";
           "Keys: a1, a3";
           "-------------------------------";
           "Only in the destiny file: 1";
           "Keys: a2"] Completed.
Proof. vm_compute. reflexivity. Qed.
